(** * shamirsplit: Shamir secret sharing over the integers modulo [modulus]

    A shallow embedding of [shamirsplit.go] ([Split], [Join] and
    [randomNumber]) together with the parts of Go's [math/big] and [io]
    packages the three functions call.

    - [*big.Int] is [Z]; Go's [int] is a 64-bit two's complement integer,
      modelled as a [Z] whose additions wrap ([wrap_int]).  The one
      [big.Int] that is kept with its sign and magnitude ([Big.Int]) is the
      coefficient that [GCD] writes: it can be a zero with the sign set.
    - A Go call either returns its results or panics ([result]).  Functions
      with the Go signature [(v, err)] return a pair whose second component
      is [None] for a nil error.
    - The [io.Reader] handed to [Split] is a state machine producing one byte
      (or one error) per step; [ReadFull] is built on top of it.
    - The rejection loop of [randomNumber] is unbounded, hence the fuel:
      [None] means that the fuel ran out before the Go call came back. *)

From Stdlib Require Import ZArith List Lia Bool Permutation.
From Stdlib Require Import Strings.Byte.
From Stdlib Require Strings.String.
Import ListNotations.
Local Open Scope Z_scope.

(* ================================================================== *)
(** * Results of Go calls *)

Inductive panic : Type :=
| IndexOutOfRange     (* runtime error: index out of range *)
| DivisionByZero.     (* math/big: division by zero *)

Inductive result (A : Type) : Type :=
| Returns (a : A)
| Panics (p : panic).

Arguments Returns {A} a.
Arguments Panics {A} p.

Definition bind {A B : Type} (r : result A) (f : A -> result B) : result B :=
  match r with
  | Returns a => f a
  | Panics p => Panics p
  end.

Notation "'let*' x ':=' r 'in' k" := (bind r (fun x => k))
  (at level 10, x name, r at level 100, k at level 200).

(** Errors of package [io] that matter to [io.ReadFull], and any other error
    a reader may come up with. *)
Inductive io_error : Type :=
| EOF
| ErrUnexpectedEOF
| ErrOther (msg : String.string).

(** The four [errors.New] values of the package, and the errors that
    [randomNumber] hands through from the reader. *)
Inductive error : Type :=
| ErrInvalidParameters      (* "invalid split parameters" *)
| ErrSecretTooLarge         (* "secret must be less than split modulus" *)
| ErrLengthMismatch         (* "lengths of shares and shareNumbers must match" *)
| ErrNegativeShareNumber    (* "found negative share number" *)
| ErrRandomSource (e : io_error).

(* ================================================================== *)
(** * Go's [int] *)

Module GoInt.

Definition max_int : Z := 2 ^ 63 - 1.

(** Two's complement wrap-around of a 64-bit signed integer. *)
Definition wrap_int (z : Z) : Z := (z + 2 ^ 63) mod 2 ^ 64 - 2 ^ 63.

Definition add (a b : Z) : Z := wrap_int (a + b).

End GoInt.

(* ================================================================== *)
(** * The methods of [math/big.Int] used by the package *)

Module Big.

(** [x.Cmp(y)]: -1, 0 or +1. *)
Definition Cmp (x y : Z) : Z :=
  match x ?= y with
  | Lt => -1
  | Eq => 0
  | Gt => 1
  end.

(** [x.BitLen()]: length of the absolute value in bits; 0 for 0. *)
Definition BitLen (x : Z) : Z :=
  if x =? 0 then 0 else Z.log2 (Z.abs x) + 1.

(** [z.SetBytes(buf)]: [buf] read as a big-endian unsigned integer. *)
Definition SetBytes (buf : list byte) : Z :=
  fold_left (fun acc b => acc * 256 + Z.of_N (Byte.to_N b)) buf 0.

(** [z.Mod(x, y)]: Euclidean modulus, in [0, |y|); panics for [y = 0]. *)
Definition Mod (x y : Z) : result Z :=
  if y =? 0 then Panics DivisionByZero else Returns (x mod Z.abs y).

(** [z.Exp(x, y, nil)]: [x ** y], and 1 when [y <= 0]. *)
Definition Exp (x y : Z) : Z :=
  if y <=? 0 then 1 else x ^ y.

(** The Euclidean iteration of [lehmerGCD]: [A] and [B] are the current
    remainders, [Ua] and [Ub] count how often the first input has been
    accumulated into them.  The loop runs until [B] is zero and yields
    the last [A] with its [Ua].  (Lehmer's variant takes several of these
    steps at once on the leading words; the quotients, and with them the
    results, are those of the plain iteration.) *)
Fixpoint euclid (fuel : nat) (A B Ua Ub : Z) : Z * Z :=
  match fuel with
  | O => (A, Ua)
  | S fuel' =>
      if B =? 0 then (A, Ua)
      else euclid fuel' B (A mod B) Ub (Ua - (A / B) * Ub)
  end.

(** Every step at least halves the product of the two remainders, so the
    number of steps is bounded by the bit lengths of the inputs. *)
Definition euclid_steps (A B : Z) : nat :=
  Z.to_nat (Z.log2 A + Z.log2 B + 2).

(** A [big.Int] as [math/big] keeps it: a sign and a magnitude.  The methods
    that the package calls leave the sign unset for 0, which is why [Z]
    stands for a [big.Int] everywhere else.  The exception is the coefficient
    [x] that [GCD] writes: [lehmerGCD] flips its sign without looking at its
    magnitude, so that it can be a zero with the sign set. *)
Record Int : Type := mkInt { neg : bool; abs : Z }.

Definition value (x : Int) : Z := if neg x then - abs x else abs x.

(** [big.NewInt(z)], and any [big.Int] that a method has normalized. *)
Definition NewInt (z : Z) : Int := mkInt (z <? 0) (Z.abs z).

(** [x.Cmp(y)] on signs and magnitudes: the signs decide where they differ,
    the magnitudes where they agree. *)
Definition CmpInt (x y : Int) : Z :=
  if Bool.eqb (neg x) (neg y) then
    let r := Cmp (abs x) (abs y) in
    if neg x then - r else r
  else if neg x then -1 else 1.

Definition lehmerGCD (a b : Z) : Z * Int * Z :=
  let A := Z.abs a in
  let B := Z.abs b in
  let '(g, ua) :=
    if A <? B
    then euclid (euclid_steps B A) B A 0 1    (* A, B = B, A; Ub, Ua = Ua, Ub *)
    else euclid (euclid_steps A B) A B 1 0 in
  (* y.Mul(a, Ua); if negA { y.neg = !y.neg }; y.Sub(A, y); y.Div(y, B) *)
  let y := a * ua in
  let y := if a <? 0 then - y else y in
  let y := (g - y) / b in
  (* *x = *Ua; if negA { x.neg = !x.neg } *)
  let x := mkInt (xorb (ua <? 0) (a <? 0)) (Z.abs ua) in
  (g, x, y).

(** [z.GCD(x, y, a, b)], as [math/big] documents it from Go 1.14 on: returns
    [(z, x, y)] with [z = a*x + b*y] the greatest common divisor of [a] and
    [b], never negative.  With [a = 0], [x = 0] and [y] is the sign of [b];
    with [b = 0], [y = 0] and [x] is the sign of [a]. *)
Definition GCD (a b : Z) : Z * Int * Z :=
  if (a =? 0) || (b =? 0) then
    (if a =? 0 then Z.abs b else Z.abs a,
     if a =? 0 then mkInt false 0 else mkInt (a <? 0) 1,
     if b =? 0 then 0 else Z.sgn b)
  else lehmerGCD a b.

End Big.

(* ================================================================== *)
(** * Join *)

(** [int64(shareNumbers[m] + 1)]: the evaluation point of share number [m];
    the addition is an [int] addition. *)
Definition point (shareNumber : Z) : Z := GoInt.add shareNumber 1.

(** Lines 83-86: [bigJ.Sub(bigJ, x_i)], then [modulus] is added once when the
    difference is negative. *)
Definition difference (xj xi modulus : Z) : Z :=
  let bigJ := xj - xi in
  if Big.Cmp bigJ 0 <? 0 then bigJ + modulus else bigJ.

(** Lines 88-94: the coefficient [x] of [d.GCD(x, y, bigJ, modulus)], with
    [modulus] added once when [x.Cmp(zero) < 0], which holds for a zero with
    the sign set as well; [x.Add] leaves a normalized sum. *)
Definition inverse (bigJ modulus : Z) : Z :=
  let '(_, x, _) := Big.GCD bigJ modulus in
  if Big.CmpInt x (Big.NewInt 0) <? 0 then Big.value x + modulus
  else Big.value x.

(** Lines 81-96: the body of the inner loop for [j <> i]. *)
Definition Join_step (shareNumbers : list Z) (modulus : Z) (i j : nat) (c : Z)
  : result Z :=
  let bigJ := point (nth j shareNumbers 0) in
  let c := c * bigJ in
  let bigJ := difference bigJ (point (nth i shareNumbers 0)) modulus in
  let x := inverse bigJ modulus in
  let c := c * x in
  Big.Mod c modulus.

(** Lines 77-97: the inner loop, [js] being the values [j] still takes. *)
Fixpoint Join_inner (shareNumbers : list Z) (modulus : Z) (i : nat)
  (js : list nat) (c : Z) : result Z :=
  match js with
  | [] => Returns c
  | j :: js' =>
      if Nat.eqb i j then Join_inner shareNumbers modulus i js' c
      else
        let* c' := Join_step shareNumbers modulus i j c in
        Join_inner shareNumbers modulus i js' c'
  end.

(** Lines 71-104: the outer loop, [todo] being the values [i] still takes,
    followed by the final reduction. *)
Fixpoint Join_outer (shares shareNumbers : list Z) (modulus : Z)
  (todo : list nat) (secret : Z) : result (option Z * option error) :=
  match todo with
  | [] =>
      let* secret' := Big.Mod secret modulus in
      Returns (Some secret', None)
  | i :: rest_i =>
      if nth i shareNumbers 0 <? 0 then
        Returns (None, Some ErrNegativeShareNumber)
      else
        let* c := Join_inner shareNumbers modulus i (seq 0 (length shares)) 1 in
        Join_outer shares shareNumbers modulus rest_i
          (secret + c * nth i shares 0)
  end.

Definition Join (shares shareNumbers : list Z) (modulus : Z)
  : result (option Z * option error) :=
  if negb (Nat.eqb (length shares) (length shareNumbers)) then
    Returns (None, Some ErrLengthMismatch)
  else
    Join_outer shares shareNumbers modulus (seq 0 (length shares)) 0.

(* ================================================================== *)
(** * The random source, randomNumber and Split *)

(** [bytes[0] &= mask] on a [uint8]. *)
Definition byte_and (b : byte) (mask : N) : byte :=
  match Byte.of_N (N.land (Byte.to_N b) mask) with
  | Some b' => b'
  | None => b
  end.

(** Lines 45-51: [t], the sum over [j = 0 .. k-1]. *)
Definition Split_sum (a : list Z) (k : nat) (bigI : Z) : Z :=
  fold_left (fun t j => t + Big.Exp bigI (Z.of_nat j) * nth j a 0)
    (seq 0 k) 0.

(** Lines 43-55: one share per [i] in [todo]. *)
Fixpoint Split_shares (a : list Z) (k : nat) (modulus : Z) (todo : list nat)
  : result (list Z) :=
  match todo with
  | [] => Returns []
  | i :: rest_i =>
      let* t := Big.Mod (Split_sum a k (Z.of_nat i)) modulus in
      let* rest := Split_shares a k modulus rest_i in
      Returns (t :: rest)
  end.

Section WithReader.

(** The reader: its state and what one more byte costs. *)
Variable St : Type.
Variable next : St -> St * (io_error + byte).

(** [io.ReadFull(rand, buf)] with [len(buf) = n], having read [got]
    already (in reverse).  An [EOF] after the first byte is reported as
    [ErrUnexpectedEOF]; with [n = 0] the reader is not touched. *)
Fixpoint ReadFull_from (n : nat) (s : St) (got : list byte)
  : St * (io_error + list byte) :=
  match n with
  | O => (s, inr (rev got))
  | S n' =>
      match next s with
      | (s', inl e) =>
          (s', inl (match e, got with
                    | EOF, _ :: _ => ErrUnexpectedEOF
                    | _, _ => e
                    end))
      | (s', inr b) => ReadFull_from n' s' (b :: got)
      end
  end.

Definition ReadFull (s : St) (n : nat) : St * (io_error + list byte) :=
  ReadFull_from n s [].

(** Lines 121-135: the rejection loop.  [n] is the value the result
    variable holds when an iteration starts. *)
Fixpoint randomNumber_loop (fuel : nat) (s : St) (max : Z) (k : nat) (r : Z)
  (n : Z) : option (St * result (Z * option error)) :=
  match fuel with
  | O => None
  | S fuel' =>
      match ReadFull s k with
      | (s', inl e) => Some (s', Returns (n, Some (ErrRandomSource e)))
      | (s', inr buf) =>
          match buf with
          | [] => Some (s', Panics IndexOutOfRange)
          | b0 :: rest =>
              let buf := byte_and b0 (Z.to_N (Z.shiftl 1 r - 1)) :: rest in
              let n := Big.SetBytes buf in
              if Big.Cmp n max <? 0 then Some (s', Returns (n, None))
              else randomNumber_loop fuel' s' max k r n
          end
      end
  end.

Definition randomNumber (fuel : nat) (s : St) (max : Z)
  : option (St * result (Z * option error)) :=
  let k := (Big.BitLen max + 7) / 8 in
  let r := Big.BitLen max mod 8 in
  let r := if r =? 0 then 8 else r in
  randomNumber_loop fuel s max (Z.to_nat k) r 0.

(** Lines 33-39: [count] more coefficients are appended to [a]. *)
Fixpoint Split_coefficients (fuel : nat) (s : St) (modulusMinus1 : Z)
  (count : nat) (a : list Z) : option (St * result (list Z * option error)) :=
  match count with
  | O => Some (s, Returns (a, None))
  | S count' =>
      match randomNumber fuel s modulusMinus1 with
      | None => None
      | Some (s', Panics p) => Some (s', Panics p)
      | Some (s', Returns (_, Some e)) => Some (s', Returns (a, Some e))
      | Some (s', Returns (ai, None)) =>
          Split_coefficients fuel s' modulusMinus1 count' (a ++ [ai + 1])
      end
  end.

Definition Split (fuel : nat) (s : St) (secret modulus k n : Z)
  : option (St * result (list Z * option error)) :=
  if (k <? 1) || (n <? k) then
    Some (s, Returns ([], Some ErrInvalidParameters))
  else if Big.Cmp secret modulus >=? 0 then
    Some (s, Returns ([], Some ErrSecretTooLarge))
  else
    match Split_coefficients fuel s (modulus - 1) (Z.to_nat (k - 1)) [secret]
    with
    | None => None
    | Some (s', Panics p) => Some (s', Panics p)
    | Some (s', Returns (_, Some e)) => Some (s', Returns ([], Some e))
    | Some (s', Returns (a, None)) =>
        Some (s',
               let* shares := Split_shares a (Z.to_nat k) modulus
                           (seq 1 (Z.to_nat n)) in
               Returns (shares, None))
    end.

End WithReader.

Arguments ReadFull {St} next s n.
Arguments randomNumber {St} next fuel s max.
Arguments randomNumber_loop {St} next fuel s max k r n.
Arguments Split_coefficients {St} next fuel s modulusMinus1 count a.
Arguments Split {St} next fuel s secret modulus k n.

(** A reader over a finite buffer: [EOF] once the buffer is used up. *)
Definition buffer_next (s : list byte) : list byte * (io_error + byte) :=
  match s with
  | [] => ([], inl EOF)
  | b :: s' => (s', inr b)
  end.

(* ================================================================== *)
(** * Notions the statements are written with *)

(** [a] and [b] are congruent modulo [m]. *)
Definition cong (m a b : Z) : Prop := (m | a - b).

Definition Zprod (l : list Z) : Z := fold_right Z.mul 1 l.

(** One factor of a Lagrange basis polynomial, evaluated at [X]: the share at
    point [x] is being weighted, [y] is the point of another share.  [Join]
    computes it at [X = 0]. *)
Definition lagrange_factor (m X x y : Z) : Z :=
  (y - X) * inverse (difference y x m) m.

Definition lagrange_term (m X x : Z) (others : list Z) : Z :=
  Zprod (map (lagrange_factor m X x) others).

(** The interpolation sum over the (point, share) pairs of [l], the pairs of
    [pre] having been dealt with already. *)
Fixpoint lagrange_sum (m X : Z) (pre l : list (Z * Z)) : Z :=
  match l with
  | [] => 0
  | (x, s) :: post =>
      lagrange_term m X x (map fst (pre ++ post)) * s
      + lagrange_sum m X (pre ++ [(x, s)]) post
  end.

(** The (point, share) pairs that [Join] is given. *)
Definition points (shares shareNumbers : list Z) : list (Z * Z) :=
  combine (map point shareNumbers) shares.

(** From (share number, share) pairs to (point, share) pairs. *)
Definition to_points (l : list (Z * Z)) : list (Z * Z) :=
  map (fun p => (point (fst p), snd p)) l.

Definition Zsum (l : list Z) : Z := fold_right Z.add 0 l.

(** The polynomial with the coefficients [a], evaluated at [x]:
    the sum of [a_j * x^j] over the positions [j] of [a]. *)
Definition polynomial (a : list Z) (x : Z) : Z :=
  Zsum (map (fun j => nth j a 0 * x ^ Z.of_nat j) (seq 0 (length a))).

(** The number of bytes [randomNumber] asks the reader for at a time. *)
Definition sample_bytes (max : Z) : nat :=
  Z.to_nat ((Big.BitLen max + 7) / 8).

(** [samples next fuel s max rs s']: starting in state [s], successive calls
    of [randomNumber] return the values [rs], in this order, and leave the
    reader in state [s']. *)
Fixpoint samples {St : Type} (next : St -> St * (io_error + byte))
  (fuel : nat) (s : St) (max : Z) (rs : list Z) (s' : St) : Prop :=
  match rs with
  | [] => s' = s
  | r :: rs' =>
      exists s1,
        randomNumber next fuel s max = Some (s1, Returns (r, None))
        /\ samples next fuel s1 max rs' s'
  end.

(** Polynomials with integer coefficients, lowest degree first, evaluated
    by Horner's rule. *)
Definition peval (cs : list Z) (x : Z) : Z :=
  fold_right (fun c acc => c + x * acc) 0 cs.

(** [g] is a polynomial function with at most [k] coefficients, that is of
    degree below [k]. *)
Definition is_poly (k : nat) (g : Z -> Z) : Prop :=
  exists cs, (length cs <= k)%nat /\ forall x, g x = peval cs x.

Fixpoint padd (a b : list Z) : list Z :=
  match a, b with
  | [], _ => b
  | _, [] => a
  | x :: a', y :: b' => (x + y) :: padd a' b'
  end.

(** The quotient of the polynomial [cs] by [X - r]. *)
Fixpoint pquot (r : Z) (cs : list Z) : list Z :=
  match cs with
  | [] => []
  | _ :: cs' =>
      match cs' with
      | [] => []
      | _ :: _ => peval cs' r :: pquot r cs'
      end
  end.

(** What the loop of [lehmerGCD] preserves, for inputs [a] and [b] (both
    non-negative here) and [m] the second of them. *)
Record euclid_inv (a b m A B Ua Ub : Z) : Prop := {
  inv_order : 0 <= B <= A;
  inv_strict : B < A \/ Ub = 0;
  inv_gcd : Z.gcd A B = Z.gcd a b;
  inv_A : exists Va, A = Ua * a + Va * b;
  inv_B : exists Vb, B = Ub * a + Vb * b;
  inv_size : A * Z.abs Ub + B * Z.abs Ua = m;
  inv_sign : Ua * Ub <= 0;
  inv_pos : 0 < m;
  inv_last : B = 0 -> Z.abs Ua < m
}.

(** A reader that yields the byte 0 forever. *)
Definition zero_reader (s : unit) : unit * (io_error + byte) := (s, inr x00).

(** The weights that the interpolation sum gives to the shares at the points
    [xs], the points [pre] coming before them. *)
Fixpoint weights (m X : Z) (pre xs : list Z) : list Z :=
  match xs with
  | [] => []
  | x :: post => lagrange_term m X x (pre ++ post) :: weights m X (pre ++ [x]) post
  end.

Definition dot (ws ss : list Z) : Z :=
  Zsum (map (fun p => fst p * snd p) (combine ws ss)).

(** The Go slice expression [l[lo:hi]]. *)
Definition slice {A : Type} (l : list A) (lo hi : nat) : list A :=
  firstn (hi - lo) (skipn lo l).

(** [shamirsplit_test.go], lines 33-36: the share numbers [0 .. n-1]. *)
Definition shareNumbers_upto (n : nat) : list Z := map Z.of_nat (seq 0 n).

(* ================================================================== *)
(** * Facts about the [math/big] model *)

Module BigFacts.
Import Big.

Lemma Cmp_lt (x y : Z) : (Cmp x y <? 0) = (x <? y).
Proof.
  unfold Cmp.
  destruct (Z.ltb_spec x y); destruct (Z.compare_spec x y);
    try lia; reflexivity.
Qed.

Lemma Cmp_ge (x y : Z) : (Cmp x y >=? 0) = (y <=? x).
Proof.
  unfold Cmp.
  destruct (Z.leb_spec y x); destruct (Z.compare_spec x y);
    try lia; reflexivity.
Qed.

Lemma Mod_nonzero (x y : Z) : y <> 0 -> Mod x y = Returns (x mod Z.abs y).
Proof.
  intros Hy. unfold Mod. apply Z.eqb_neq in Hy. rewrite Hy. reflexivity.
Qed.

Lemma Mod_zero (x : Z) : Mod x 0 = Panics DivisionByZero.
Proof. reflexivity. Qed.

Lemma Exp_pow (x : Z) (j : nat) : Exp x (Z.of_nat j) = x ^ Z.of_nat j.
Proof.
  unfold Exp. destruct (Z.leb_spec (Z.of_nat j) 0) as [L | L]; [ | reflexivity].
  assert (Z.of_nat j = 0) as -> by lia. reflexivity.
Qed.

Lemma SetBytes_from_nonneg (buf : list byte) (acc : Z) :
  0 <= acc ->
  0 <= fold_left (fun acc b => acc * 256 + Z.of_N (Byte.to_N b)) buf acc.
Proof.
  revert acc. induction buf as [ | b buf IH]; intros acc Hacc; cbn.
  - exact Hacc.
  - apply IH. pose proof (N2Z.is_nonneg (Byte.to_N b)). lia.
Qed.

Lemma SetBytes_nonneg (buf : list byte) : 0 <= SetBytes buf.
Proof. apply SetBytes_from_nonneg. lia. Qed.

(** ** The Euclidean iteration *)

Lemma euclid_inv_step (a b m A B Ua Ub : Z) :
  euclid_inv a b m A B Ua Ub -> B <> 0 ->
  euclid_inv a b m B (A mod B) Ub (Ua - A / B * Ub).
Proof.
  intros [Ho Hs Hg [Va HA] [Vb HB] Hz Hsg Hm Hl] HB0.
  assert (HBpos : 0 < B) by lia.
  pose proof (Z.mod_pos_bound A B HBpos) as Hr.
  pose proof (Z.div_mod A B HB0) as Hdm.
  assert (Hq : 0 <= A / B) by (apply Z.div_pos; lia).
  assert (Hq1 : 1 <= A / B) by (apply Z.div_le_lower_bound; lia).
  constructor.
  - lia.
  - left. lia.
  - rewrite <- Hg, (Z.gcd_comm B), Z.gcd_mod by lia. apply Z.gcd_comm.
  - exists Vb. exact HB.
  - exists (Va - A / B * Vb).
    rewrite Z.mod_eq by lia.
    transitivity (A - A / B * B); [ring | ].
    rewrite HA at 1. rewrite HB at 2. ring.
  - rewrite Z.mod_eq by lia.
    assert (Habs : Z.abs (Ua - A / B * Ub) = Z.abs Ua + A / B * Z.abs Ub).
    { destruct (Z.abs_spec Ua) as [[? ->] | [? ->]];
        destruct (Z.abs_spec Ub) as [[? ->] | [? ->]];
        destruct (Z.abs_spec (Ua - A / B * Ub)) as [[? ->] | [? ->]]; nia. }
    rewrite Habs. rewrite <- Hz. ring.
  - nia.
  - exact Hm.
  - intros Hr0.
    destruct Hs as [Hlt | Hub0].
    + assert (2 <= A) by lia.
      assert (0 <= B * Z.abs Ua) by (pose proof (Z.abs_nonneg Ua); nia).
      assert (0 <= Z.abs Ub) by apply Z.abs_nonneg.
      nia.
    + subst Ub. rewrite Z.abs_0. exact Hm.
Qed.

Lemma euclid_correct (a b m : Z) (fuel : nat) :
  forall A B Ua Ub,
    euclid_inv a b m A B Ua Ub ->
    A * B < 2 ^ Z.of_nat fuel ->
    let '(g, ua) := euclid fuel A B Ua Ub in
    g = Z.gcd a b /\ (exists v, g = ua * a + v * b) /\ Z.abs ua < m.
Proof.
  induction fuel as [ | fuel IH]; intros A B Ua Ub Hinv Hfuel.
  - destruct Hinv as [Ho Hs Hg HA HB Hz Hsg Hm Hl].
    assert (B = 0) by (change (2 ^ Z.of_nat 0) with 1 in Hfuel; nia).
    subst B. cbn. rewrite Z.gcd_0_r in Hg.
    repeat split; [ rewrite <- Hg; symmetry; apply Z.abs_eq; lia | exact HA | auto ].
  - cbn [euclid]. destruct (Z.eqb_spec B 0) as [E | N].
    + destruct Hinv as [Ho Hs Hg HA HB Hz Hsg Hm Hl].
      subst B. rewrite Z.gcd_0_r in Hg.
      repeat split; [ rewrite <- Hg; symmetry; apply Z.abs_eq; lia | exact HA | auto ].
    + apply IH; [ apply euclid_inv_step; assumption | ].
      destruct Hinv as [Ho Hs Hg HA HB Hz Hsg Hm Hl].
      assert (HBpos : 0 < B) by lia.
      pose proof (Z.mod_pos_bound A B HBpos) as Hr.
      pose proof (Z.div_mod A B N) as Hdm.
      assert (Hq1 : 1 <= A / B) by (apply Z.div_le_lower_bound; lia).
      rewrite Nat2Z.inj_succ, Z.pow_succ_r in Hfuel by lia.
      assert (2 * (A mod B) <= A) by nia.
      nia.
Qed.

Lemma euclid_steps_enough (A B : Z) :
  0 < A -> 0 < B -> A * B < 2 ^ Z.of_nat (euclid_steps A B).
Proof.
  intros HA HB. unfold euclid_steps.
  pose proof (Z.log2_nonneg A). pose proof (Z.log2_nonneg B).
  rewrite Z2Nat.id by lia.
  replace (Z.log2 A + Z.log2 B + 2) with (Z.succ (Z.log2 A) + Z.succ (Z.log2 B)) by lia.
  rewrite Z.pow_add_r by lia.
  pose proof (Z.log2_spec A HA). pose proof (Z.log2_spec B HB).
  nia.
Qed.

Lemma CmpInt_zero (x : Int) :
  0 <= abs x -> (CmpInt x (NewInt 0) <? 0) = neg x.
Proof.
  destruct x as [[ | ] ab]; cbn [abs neg]; intros Hab.
  - reflexivity.
  - unfold CmpInt. cbn [neg abs NewInt Bool.eqb Z.ltb Z.compare Z.abs].
    rewrite Cmp_lt. apply Z.ltb_ge. exact Hab.
Qed.

Lemma value_flipped (ua a : Z) :
  value (mkInt (xorb (ua <? 0) (a <? 0)) (Z.abs ua)) = if a <? 0 then - ua else ua.
Proof.
  unfold value. cbn [neg abs].
  destruct (Z.ltb_spec ua 0); destruct (Z.ltb_spec a 0); cbn [xorb]; lia.
Qed.

Lemma lehmerGCD_spec (a b : Z) :
  a <> 0 -> b <> 0 ->
  let '(g, x, y) := lehmerGCD a b in
  g = Z.gcd a b /\ g = a * value x + b * y /\ Z.abs (value x) < Z.abs b
  /\ 0 <= abs x
  /\ (0 < a -> neg x = true -> value x < 0).
Proof.
  intros Ha Hb. unfold lehmerGCD.
  assert (HA : 0 < Z.abs a) by lia.
  assert (HB : 0 < Z.abs b) by lia.
  assert (Hrun : exists g ua,
    (if Z.abs a <? Z.abs b
     then euclid (euclid_steps (Z.abs b) (Z.abs a)) (Z.abs b) (Z.abs a) 0 1
     else euclid (euclid_steps (Z.abs a) (Z.abs b)) (Z.abs a) (Z.abs b) 1 0)
    = (g, ua)
    /\ g = Z.gcd (Z.abs a) (Z.abs b)
    /\ (exists v, g = ua * Z.abs a + v * Z.abs b)
    /\ Z.abs ua < Z.abs b).
  { destruct (Z.ltb_spec (Z.abs a) (Z.abs b)) as [L | G].
    - pose proof (euclid_correct (Z.abs a) (Z.abs b) (Z.abs b)
                    (euclid_steps (Z.abs b) (Z.abs a))
                    (Z.abs b) (Z.abs a) 0 1) as E.
      destruct (euclid _ _ _ _ _) as [g ua]. exists g, ua.
      split; [reflexivity | ]. apply E.
      + constructor; try lia.
        * apply Z.gcd_comm.
        * exists 1. ring.
        * exists 0. ring.
      + apply euclid_steps_enough; assumption.
    - pose proof (euclid_correct (Z.abs a) (Z.abs b) (Z.abs b)
                    (euclid_steps (Z.abs a) (Z.abs b))
                    (Z.abs a) (Z.abs b) 1 0) as E.
      destruct (euclid _ _ _ _ _) as [g ua]. exists g, ua.
      split; [reflexivity | ]. apply E.
      + constructor; try lia.
        * exists 0. ring.
        * exists 1. ring.
      + apply euclid_steps_enough; assumption. }
  destruct Hrun as (g & ua & -> & Hg & [v Hv] & Hbound).
  rewrite Z.gcd_abs_l, Z.gcd_abs_r in Hg.
  rewrite value_flipped.
  assert (Hax : a * (if a <? 0 then - ua else ua) = ua * Z.abs a).
  { destruct (Z.ltb_spec a 0); [rewrite Z.abs_neq by lia | rewrite Z.abs_eq by lia]; ring. }
  assert (Hay : (if a <? 0 then - (a * ua) else a * ua) = ua * Z.abs a).
  { destruct (Z.ltb_spec a 0); [rewrite Z.abs_neq by lia | rewrite Z.abs_eq by lia]; ring. }
  assert (Hxabs : Z.abs (if a <? 0 then - ua else ua) = Z.abs ua).
  { destruct (a <? 0); [apply Z.abs_opp | reflexivity]. }
  split; [exact Hg | split; [ | split; [ | split]]].
  - rewrite Hax, Hay.
    replace (g - ua * Z.abs a) with (v * Z.abs b) by lia.
    assert (Hdiv : v * Z.abs b = (v * Z.sgn b) * b).
    { destruct (Z.abs_spec b) as [[? ->] | [? ->]];
        destruct (Z.sgn_spec b) as [[? ->] | [[? ->] | [? ->]]]; lia. }
    rewrite Hdiv at 1. rewrite Z.div_mul by exact Hb. lia.
  - rewrite Hxabs. exact Hbound.
  - cbn [abs]. apply Z.abs_nonneg.
  - intros Hpos. cbn [neg].
    assert ((a <? 0) = false) as -> by (apply Z.ltb_ge; lia).
    rewrite xorb_false_r. intros Hneg. apply Z.ltb_lt in Hneg. exact Hneg.
Qed.

(** [GCD] yields the greatest common divisor and Bezout coefficients
    for it. *)
Lemma GCD_spec (a b : Z) :
  let '(d, x, y) := GCD a b in
  d = Z.gcd a b /\ d = a * value x + b * y.
Proof.
  unfold GCD.
  destruct (Z.eqb_spec a 0) as [Ea | Na]; cbn [orb].
  - subst a. cbv beta iota zeta. split; [symmetry; apply Z.gcd_0_l | ].
    change (value (mkInt false 0)) with 0.
    destruct (Z.eqb_spec b 0) as [Eb | Nb]; [subst; reflexivity | ].
    destruct (Z.abs_spec b) as [[? ->] | [? ->]];
      destruct (Z.sgn_spec b) as [[? ->] | [[? ->] | [? ->]]]; lia.
  - destruct (Z.eqb_spec b 0) as [Eb | Nb].
    + subst b. cbv beta iota zeta. split; [symmetry; apply Z.gcd_0_r | ].
      unfold value. cbn [neg abs].
      destruct (Z.ltb_spec a 0);
        destruct (Z.abs_spec a) as [[? ->] | [? ->]]; lia.
    + pose proof (lehmerGCD_spec a b Na Nb) as H.
      destruct (lehmerGCD a b) as [[g x] y]. tauto.
Qed.

(** The first Bezout coefficient is smaller than the second input. *)
Lemma GCD_coefficient_bound (a b : Z) :
  b <> 0 ->
  let '(_, x, _) := GCD a b in Z.abs (value x) < Z.abs b /\ 0 <= abs x.
Proof.
  intros Nb. unfold GCD.
  destruct (Z.eqb_spec a 0) as [Ea | Na]; cbn [orb].
  - cbn. lia.
  - destruct (Z.eqb_spec b 0) as [Eb | _]; [contradiction | ].
    pose proof (lehmerGCD_spec a b Na Nb) as H.
    destruct (lehmerGCD a b) as [[g x] y]. tauto.
Qed.

(** For a first input that is not negative the coefficient is normalized:
    its sign is set only when it is negative. *)
Lemma GCD_coefficient_normal (a b : Z) :
  0 <= a ->
  let '(_, x, _) := GCD a b in neg x = true -> value x < 0.
Proof.
  intros Ha. unfold GCD.
  destruct (Z.eqb_spec a 0) as [Ea | Na]; cbn [orb].
  - cbn. discriminate.
  - destruct (Z.eqb_spec b 0) as [Eb | Nb].
    + cbn [neg]. intros Hneg. apply Z.ltb_lt in Hneg. lia.
    + pose proof (lehmerGCD_spec a b Na Nb) as H.
      destruct (lehmerGCD a b) as [[g x] y].
      destruct H as (_ & _ & _ & _ & H). apply H. lia.
Qed.

(** For a first input that is a negative multiple of the second the
    coefficient is a zero with the sign set. *)
Lemma GCD_negative_zero (a b : Z) :
  b <> 0 -> a < 0 -> (b | a) ->
  let '(_, x, _) := GCD a b in x = mkInt true 0.
Proof.
  intros Hb Ha Hdiv. unfold GCD.
  assert ((a =? 0) = false) as -> by (apply Z.eqb_neq; lia).
  assert ((b =? 0) = false) as -> by (apply Z.eqb_neq; lia).
  cbn [orb]. unfold lehmerGCD.
  assert (Hdiv' : (Z.abs b | Z.abs a))
    by (apply Z.divide_abs_l, Z.divide_abs_r, Hdiv).
  assert (Hle : Z.abs b <= Z.abs a) by (apply Z.divide_pos_le; [lia | exact Hdiv']).
  assert ((Z.abs a <? Z.abs b) = false) as -> by (apply Z.ltb_ge; exact Hle).
  assert (Hsteps : exists f, euclid_steps (Z.abs a) (Z.abs b) = S f).
  { unfold euclid_steps.
    pose proof (Z.log2_nonneg (Z.abs a)). pose proof (Z.log2_nonneg (Z.abs b)).
    exists (Z.to_nat (Z.log2 (Z.abs a) + Z.log2 (Z.abs b) + 1)). lia. }
  destruct Hsteps as [f ->]. cbn [euclid].
  assert ((Z.abs b =? 0) = false) as -> by (apply Z.eqb_neq; lia).
  assert (Z.abs a mod Z.abs b = 0) as -> by (apply Z.mod_divide; [lia | exact Hdiv']).
  assert (Hrest : forall Ub, euclid f (Z.abs b) 0 0 Ub = (Z.abs b, 0))
    by (intros Ub; destruct f; reflexivity).
  rewrite Hrest.
  assert ((a <? 0) = true) as -> by (apply Z.ltb_lt; exact Ha).
  reflexivity.
Qed.

End BigFacts.

(* ================================================================== *)
(** * Congruences and lists *)

Lemma cong_refl (m a : Z) : cong m a a.
Proof. unfold cong. rewrite Z.sub_diag. apply Z.divide_0_r. Qed.

Lemma cong_sym (m a b : Z) : cong m a b -> cong m b a.
Proof.
  unfold cong. intros [q H]. exists (- q). lia.
Qed.

Lemma cong_trans (m a b c : Z) : cong m a b -> cong m b c -> cong m a c.
Proof.
  unfold cong. intros [q H] [r K]. exists (q + r). lia.
Qed.

Lemma cong_add (m a b c d : Z) : cong m a b -> cong m c d -> cong m (a + c) (b + d).
Proof.
  unfold cong. intros [q H] [r K]. exists (q + r). lia.
Qed.

Lemma cong_mul (m a b c d : Z) : cong m a b -> cong m c d -> cong m (a * c) (b * d).
Proof.
  unfold cong. intros [q H] [r K]. exists (q * c + b * r).
  replace (a * c - b * d) with ((a - b) * c + b * (c - d)) by ring.
  rewrite H, K. ring.
Qed.

Lemma cong_mod_abs (m a : Z) : cong m (a mod Z.abs m) a.
Proof.
  unfold cong. apply Z.divide_abs_l.
  destruct (Z.eq_dec (Z.abs m) 0) as [E | N].
  - rewrite E, Z.mod_0_r, Z.sub_diag. apply Z.divide_0_r.
  - exists (- (a / Z.abs m)). rewrite Z.mod_eq by exact N. ring.
Qed.

Lemma cong_mod_eq (m a b : Z) : cong m a b -> a mod Z.abs m = b mod Z.abs m.
Proof.
  unfold cong. intros H. apply Z.divide_abs_l in H. destruct H as [q H].
  replace a with (b + q * Z.abs m) by lia. apply Z_mod_plus_full.
Qed.

Lemma cong_0_divide (m a : Z) : cong m a 0 <-> (m | a).
Proof. unfold cong. rewrite Z.sub_0_r. reflexivity. Qed.

Lemma nth_seq_suffix {A : Type} (d : A) (l pre : list A) :
  map (fun j => nth j (pre ++ l) d) (seq (length pre) (length l)) = l.
Proof.
  revert pre. induction l as [ | a l IH]; intros pre; [reflexivity | ].
  cbn [length seq map]. rewrite nth_middle. f_equal.
  specialize (IH (pre ++ [a])).
  rewrite <- app_assoc, length_app, Nat.add_1_r in IH. exact IH.
Qed.

Lemma nth_seq_prefix {A : Type} (d : A) (pre l : list A) :
  map (fun j => nth j (pre ++ l) d) (seq 0 (length pre)) = pre.
Proof.
  transitivity (map (fun j => nth j pre d) (seq 0 (length pre))).
  - apply map_ext_in. intros j Hj. apply in_seq in Hj.
    apply app_nth1. lia.
  - exact (nth_seq_suffix d pre []).
Qed.

Lemma Zprod_cons (a : Z) (l : list Z) : Zprod (a :: l) = a * Zprod l.
Proof. reflexivity. Qed.

Lemma Zprod_app (l1 l2 : list Z) : Zprod (l1 ++ l2) = Zprod l1 * Zprod l2.
Proof.
  induction l1 as [ | a l1 IH]; cbn [app].
  - change (Zprod []) with 1. lia.
  - rewrite !Zprod_cons, IH. ring.
Qed.

Lemma Zprod_perm (l1 l2 : list Z) : Permutation l1 l2 -> Zprod l1 = Zprod l2.
Proof.
  induction 1 as [ | a l1 l2 _ IH | a b l | l1 l2 l3 _ IH1 _ IH2].
  - reflexivity.
  - rewrite !Zprod_cons, IH. reflexivity.
  - rewrite !Zprod_cons. ring.
  - congruence.
Qed.

(* ================================================================== *)
(** * What Join computes *)

Lemma difference_eq (xj xi m : Z) :
  difference xj xi m = if xj - xi <? 0 then xj - xi + m else xj - xi.
Proof. unfold difference. rewrite BigFacts.Cmp_lt. reflexivity. Qed.

Lemma difference_cong (xj xi m : Z) : cong m (difference xj xi m) (xj - xi).
Proof.
  rewrite difference_eq. destruct (xj - xi <? 0).
  - exists 1. ring.
  - apply cong_refl.
Qed.

Lemma inverse_eq (a m : Z) :
  m <> 0 ->
  let '(_, x, _) := Big.GCD a m in
  inverse a m = if Big.neg x then Big.value x + m else Big.value x.
Proof.
  intros Hm. unfold inverse.
  pose proof (BigFacts.GCD_coefficient_bound a m Hm) as Hb.
  destruct (Big.GCD a m) as [[d x] y]. destruct Hb as [_ Habs].
  rewrite BigFacts.CmpInt_zero by exact Habs. reflexivity.
Qed.

(** The normalized coefficient lies between 0 and the modulus, the modulus
    included. *)
Lemma inverse_range (a m : Z) : 0 < m -> 0 <= inverse a m <= m.
Proof.
  intros Hm.
  pose proof (inverse_eq a m ltac:(lia)) as He.
  pose proof (BigFacts.GCD_coefficient_bound a m ltac:(lia)) as Hb.
  destruct (Big.GCD a m) as [[d x] y]. rewrite He. destruct Hb as [Hb Habs].
  unfold Big.value in *. destruct (Big.neg x); lia.
Qed.

(** It is below the modulus when the quantity inverted is not negative. *)
Lemma inverse_range_nonneg (a m : Z) : 0 < m -> 0 <= a -> 0 <= inverse a m < m.
Proof.
  intros Hm Ha.
  pose proof (inverse_eq a m ltac:(lia)) as He.
  pose proof (BigFacts.GCD_coefficient_bound a m ltac:(lia)) as Hb.
  pose proof (BigFacts.GCD_coefficient_normal a m Ha) as Hn.
  destruct (Big.GCD a m) as [[d x] y]. rewrite He. destruct Hb as [Hb Habs].
  unfold Big.value in *.
  destruct (Big.neg x); [specialize (Hn eq_refl) | ]; lia.
Qed.

(** It is the modulus itself exactly when the quantity inverted is a negative
    multiple of the modulus. *)
Lemma inverse_modulus (a m : Z) :
  0 < m -> (inverse a m = m <-> a < 0 /\ (m | a)).
Proof.
  intros Hm. split.
  - intros Hinv.
    pose proof (inverse_eq a m ltac:(lia)) as He.
    pose proof (BigFacts.GCD_coefficient_bound a m ltac:(lia)) as Hb.
    pose proof (BigFacts.GCD_spec a m) as Hs.
    destruct (Z.le_gt_cases 0 a) as [Hpos | Hneg].
    + pose proof (inverse_range_nonneg a m Hm Hpos). lia.
    + split; [exact Hneg | ].
      destruct (Big.GCD a m) as [[d x] y]. rewrite He in Hinv.
      destruct Hb as [Hb Habs]. destruct Hs as [Hd Hbez].
      assert (Hx : Big.value x = 0)
        by (unfold Big.value in *; destruct (Big.neg x); lia).
      rewrite Hx, Z.mul_0_r, Z.add_0_l in Hbez.
      apply Z.divide_trans with (m := d).
      * exists y. rewrite Hbez. ring.
      * rewrite Hd. apply Z.gcd_divide_l.
  - intros [Hneg Hdiv].
    pose proof (inverse_eq a m ltac:(lia)) as He.
    pose proof (BigFacts.GCD_negative_zero a m ltac:(lia) Hneg Hdiv) as Hz.
    destruct (Big.GCD a m) as [[d x] y]. rewrite He, Hz. cbn. lia.
Qed.

Lemma inverse_spec (a m : Z) : Z.gcd a m = 1 -> cong m (a * inverse a m) 1.
Proof.
  intros Hg. unfold inverse.
  pose proof (BigFacts.GCD_spec a m) as Hs.
  destruct (Big.GCD a m) as [[d x] y]. destruct Hs as [Hd Hbez].
  unfold cong.
  destruct (Big.CmpInt x (Big.NewInt 0) <? 0); [exists (a - y) | exists (- y)]; lia.
Qed.

Lemma Join_step_value (nums : list Z) (m : Z) (i j : nat) (c : Z) :
  m <> 0 ->
  Join_step nums m i j c =
  Returns ((c * lagrange_factor m 0 (point (nth i nums 0)) (point (nth j nums 0)))
             mod Z.abs m).
Proof.
  intros Hm. unfold Join_step, lagrange_factor.
  rewrite BigFacts.Mod_nonzero by exact Hm.
  do 2 f_equal. ring.
Qed.

Lemma Join_inner_app (nums : list Z) (m : Z) (i : nat) (l1 l2 : list nat) (c : Z) :
  Join_inner nums m i (l1 ++ l2) c =
  (let* c' := Join_inner nums m i l1 c in Join_inner nums m i l2 c').
Proof.
  revert c. induction l1 as [ | j l1 IH]; intros c; cbn [app Join_inner].
  - reflexivity.
  - destruct (Nat.eqb i j); [apply IH | ].
    destruct (Join_step nums m i j c) as [c1 | p]; cbn [bind]; [apply IH | reflexivity].
Qed.

Lemma lagrange_term_cons (m X x y : Z) (others : list Z) :
  lagrange_term m X x (y :: others) =
  lagrange_factor m X x y * lagrange_term m X x others.
Proof. reflexivity. Qed.

Lemma lagrange_term_app (m X x : Z) (l1 l2 : list Z) :
  lagrange_term m X x (l1 ++ l2) = lagrange_term m X x l1 * lagrange_term m X x l2.
Proof. unfold lagrange_term. rewrite map_app. apply Zprod_app. Qed.

Lemma lagrange_term_perm (m X x : Z) (l1 l2 : list Z) :
  Permutation l1 l2 -> lagrange_term m X x l1 = lagrange_term m X x l2.
Proof.
  intros H. unfold lagrange_term. apply Zprod_perm, Permutation_map, H.
Qed.

(** The inner loop over a range of [j] that does not contain [i]. *)
Lemma Join_inner_range (nums : list Z) (m : Z) (i : nat) :
  m <> 0 ->
  forall (n s : nat) (c : Z),
    (i < s \/ s + n <= i)%nat ->
    exists c',
      Join_inner nums m i (seq s n) c = Returns c' /\
      cong m c' (c * lagrange_term m 0 (point (nth i nums 0))
                       (map (fun j => point (nth j nums 0)) (seq s n))).
Proof.
  intros Hm. induction n as [ | n IH]; intros s c Hi; cbn [seq Join_inner map].
  - exists c. split; [reflexivity | ].
    change (lagrange_term _ _ _ []) with 1. rewrite Z.mul_1_r. apply cong_refl.
  - assert (Nat.eqb i s = false) as -> by (apply Nat.eqb_neq; lia).
    rewrite Join_step_value by exact Hm. cbn [bind].
    destruct (IH (S s) ((c * lagrange_factor m 0 (point (nth i nums 0))
                               (point (nth s nums 0))) mod Z.abs m)
                ltac:(lia)) as (c' & Hrun & Hc').
    exists c'. split; [exact Hrun | ].
    eapply cong_trans; [exact Hc' | ].
    rewrite lagrange_term_cons, Z.mul_assoc.
    apply cong_mul; [apply cong_mod_abs | apply cong_refl].
Qed.

(** The inner loop for the share at position [length pre]. *)
Lemma Join_inner_value (m : Z) (pre post : list (Z * Z)) (n s c : Z) :
  m <> 0 ->
  let nums := map fst (pre ++ (n, s) :: post) in
  exists c',
    Join_inner nums m (length pre) (seq 0 (length nums)) c = Returns c' /\
    cong m c' (c * lagrange_term m 0 (point n)
                     (map point (map fst (pre ++ post)))).
Proof.
  intros Hm nums.
  assert (Hnums : nums = map fst pre ++ n :: map fst post).
  { unfold nums. rewrite map_app. reflexivity. }
  assert (Hlen : length nums = (length pre + S (length post))%nat).
  { unfold nums. rewrite length_map, length_app. reflexivity. }
  assert (Hown : nth (length pre) nums 0 = n).
  { rewrite Hnums, <- (length_map fst pre). apply nth_middle. }
  rewrite Hlen, seq_app. cbn [seq]. rewrite Join_inner_app.
  destruct (Join_inner_range nums m (length pre) Hm (length pre) 0%nat c ltac:(lia))
    as (c1 & Hrun1 & Hc1).
  rewrite Hrun1. cbn [bind Join_inner Nat.add]. rewrite Nat.eqb_refl.
  destruct (Join_inner_range nums m (length pre) Hm (length post) (S (length pre)) c1
              ltac:(lia)) as (c2 & Hrun2 & Hc2).
  exists c2. split; [exact Hrun2 | ].
  rewrite Hown in Hc1, Hc2.
  assert (Hpre : map (fun j => point (nth j nums 0)) (seq 0 (length pre))
                 = map point (map fst pre)).
  { rewrite <- (map_map (fun j => nth j nums 0) point). f_equal.
    rewrite Hnums, <- (length_map fst pre). apply nth_seq_prefix. }
  assert (Hpost : map (fun j => point (nth j nums 0)) (seq (S (length pre)) (length post))
                  = map point (map fst post)).
  { rewrite <- (map_map (fun j => nth j nums 0) point). f_equal.
    rewrite Hnums.
    replace (map fst pre ++ n :: map fst post)
      with ((map fst pre ++ [n]) ++ map fst post) by (rewrite <- app_assoc; reflexivity).
    replace (S (length pre)) with (length (map fst pre ++ [n]))
      by (rewrite length_app, length_map; cbn; lia).
    rewrite <- (length_map fst post). apply nth_seq_suffix. }
  rewrite Hpre in Hc1. rewrite Hpost in Hc2.
  eapply cong_trans; [exact Hc2 | ].
  rewrite !map_app, lagrange_term_app, Z.mul_assoc.
  apply cong_mul; [exact Hc1 | apply cong_refl].
Qed.

Lemma map_fst_combine {A B : Type} (a : list A) (b : list B) :
  length a = length b -> map fst (combine a b) = a.
Proof.
  revert b. induction a as [ | x a IH]; intros [ | y b] H; try discriminate; cbn.
  - reflexivity.
  - f_equal. apply IH. cbn in H. lia.
Qed.

Lemma map_snd_combine {A B : Type} (a : list A) (b : list B) :
  length a = length b -> map snd (combine a b) = b.
Proof.
  revert b. induction a as [ | x a IH]; intros [ | y b] H; try discriminate; cbn.
  - reflexivity.
  - f_equal. apply IH. cbn in H. lia.
Qed.

Lemma to_points_combine (nums shares : list Z) :
  to_points (combine nums shares) = points shares nums.
Proof.
  unfold to_points, points. revert shares.
  induction nums as [ | n nums IH]; intros [ | s shares]; cbn; try reflexivity.
  f_equal. apply IH.
Qed.

Lemma map_fst_to_points (l : list (Z * Z)) :
  map fst (to_points l) = map point (map fst l).
Proof. unfold to_points. rewrite !map_map. reflexivity. Qed.

Lemma to_points_app (l1 l2 : list (Z * Z)) :
  to_points (l1 ++ l2) = to_points l1 ++ to_points l2.
Proof. apply map_app. Qed.

(** The outer loop from position [length pre] on. *)
Lemma Join_outer_value (m : Z) :
  m <> 0 ->
  forall (l pre : list (Z * Z)) (acc : Z),
    Forall (fun p => 0 <= fst p) l ->
    Join_outer (map snd (pre ++ l)) (map fst (pre ++ l)) m
      (seq (length pre) (length l)) acc
    = Returns (Some ((acc + lagrange_sum m 0 (to_points pre) (to_points l))
                       mod Z.abs m), None).
Proof.
  intros Hm. induction l as [ | [n s] post IH]; intros pre acc Hpos.
  - cbn [length seq Join_outer to_points map lagrange_sum].
    rewrite BigFacts.Mod_nonzero, Z.add_0_r by exact Hm. reflexivity.
  - cbn [length seq Join_outer].
    assert (Hn : nth (length pre) (map fst (pre ++ (n, s) :: post)) 0 = n).
    { rewrite map_app, <- (length_map fst pre). apply nth_middle. }
    assert (Hs : nth (length pre) (map snd (pre ++ (n, s) :: post)) 0 = s).
    { rewrite map_app, <- (length_map snd pre). apply nth_middle. }
    rewrite Hn, Hs.
    assert (0 <= n) as Hn0 by (inversion Hpos; assumption).
    assert ((n <? 0) = false) as -> by (apply Z.ltb_ge; exact Hn0).
    destruct (Join_inner_value m pre post n s 1 Hm) as (c & Hrun & Hc).
    cbv zeta in Hrun. rewrite length_map in Hrun.
    rewrite length_map, Hrun. cbn [bind].
    specialize (IH (pre ++ [(n, s)]) (acc + c * s)).
    rewrite <- app_assoc, length_app, Nat.add_1_r in IH. cbn [app] in IH.
    rewrite IH by (inversion Hpos; assumption).
    do 3 f_equal. apply cong_mod_eq.
    cbn [to_points map lagrange_sum fst snd].
    change (map (fun p => (point (fst p), snd p))) with to_points.
    rewrite to_points_app. cbn [to_points map fst snd].
    rewrite Z.add_assoc. apply cong_add; [ | apply cong_refl].
    apply cong_add; [apply cong_refl | ].
    apply cong_mul; [ | apply cong_refl].
    rewrite <- to_points_app, map_fst_to_points.
    rewrite Z.mul_1_l in Hc. exact Hc.
Qed.

(** With a non-zero modulus and valid arguments, [Join] returns the
    interpolation sum at 0, reduced. *)
Lemma Join_value (shares nums : list Z) (m : Z) :
  m <> 0 ->
  length shares = length nums ->
  Forall (fun n => 0 <= n) nums ->
  Join shares nums m
  = Returns (Some (lagrange_sum m 0 [] (points shares nums) mod Z.abs m), None).
Proof.
  intros Hm Hlen Hpos. unfold Join.
  rewrite Hlen, Nat.eqb_refl. cbn [negb].
  pose proof (Join_outer_value m Hm (combine nums shares) [] 0) as H.
  cbn [app length to_points map] in H.
  rewrite map_fst_combine, map_snd_combine, length_combine in H by lia.
  rewrite <- Hlen, Nat.min_id in H. rewrite <- Hlen.
  rewrite H.
  - change (map (fun p => (point (fst p), snd p))) with to_points.
    rewrite to_points_combine. reflexivity.
  - apply Forall_forall. intros [n s] Hin. cbn.
    rewrite Forall_forall in Hpos. apply Hpos.
    eapply in_combine_l, Hin.
Qed.

(* ================================================================== *)
(** * Join: validation and errors *)

Lemma Join_inner_total (nums : list Z) (m : Z) (i : nat) :
  m <> 0 ->
  forall (js : list nat) (c : Z), exists c', Join_inner nums m i js c = Returns c'.
Proof.
  intros Hm. induction js as [ | j js IH]; intros c; cbn [Join_inner].
  - exists c. reflexivity.
  - destruct (Nat.eqb i j); [apply IH | ].
    rewrite Join_step_value by exact Hm. cbn [bind]. apply IH.
Qed.

(** What the outer loop can come back with. *)
Lemma Join_outer_returns (shares nums : list Z) (m : Z) :
  forall (todo : list nat) (acc : Z) (v : option Z) (e : option error),
    Join_outer shares nums m todo acc = Returns (v, e) ->
    (v = None /\ e = Some ErrNegativeShareNumber /\
     exists i, In i todo /\ nth i nums 0 < 0)
    \/ (exists s, v = Some s /\ e = None).
Proof.
  induction todo as [ | i todo IH]; intros acc v e H; cbn [Join_outer] in H.
  - destruct (Big.Mod acc m) as [s | p]; cbn [bind] in H; [ | discriminate].
    injection H as <- <-. right. exists s. split; reflexivity.
  - destruct (Z.ltb_spec (nth i nums 0) 0) as [L | G].
    + injection H as <- <-. left. repeat split. exists i. split; [left; reflexivity | exact L].
    + destruct (Join_inner nums m i (seq 0 (length shares)) 1) as [c | p];
        cbn [bind] in H; [ | discriminate].
      destruct (IH _ _ _ H) as [(Hv & He & j & Hj & Hneg) | Hok].
      * left. repeat split; try assumption. exists j. split; [right; exact Hj | exact Hneg].
      * right. exact Hok.
Qed.

Lemma Join_outer_negative (shares nums : list Z) (m : Z) :
  m <> 0 ->
  forall (todo : list nat) (acc : Z),
    (exists i, In i todo /\ nth i nums 0 < 0) ->
    Join_outer shares nums m todo acc = Returns (None, Some ErrNegativeShareNumber).
Proof.
  intros Hm. induction todo as [ | i todo IH]; intros acc (j & Hj & Hneg).
  - destruct Hj.
  - cbn [Join_outer]. destruct (Z.ltb_spec (nth i nums 0) 0) as [L | G]; [reflexivity | ].
    destruct (Join_inner_total nums m i Hm (seq 0 (length shares)) 1) as [c ->].
    cbn [bind]. apply IH. exists j. split; [ | exact Hneg].
    destruct Hj as [-> | Hj]; [lia | exact Hj].
Qed.

Lemma Exists_negative_nth (nums : list Z) :
  Exists (fun n => n < 0) nums <->
  exists i, In i (seq 0 (length nums)) /\ nth i nums 0 < 0.
Proof.
  rewrite Exists_exists. split.
  - intros (n & Hin & Hneg). destruct (In_nth nums n 0 Hin) as (i & Hi & Hnth).
    exists i. split; [apply in_seq; lia | rewrite Hnth; exact Hneg].
  - intros (i & Hi & Hneg). apply in_seq in Hi.
    exists (nth i nums 0). split; [apply nth_In; lia | exact Hneg].
Qed.

Lemma Join_outer_zero_first (shares nums : list Z) (todo : list nat) (acc : Z) :
  (2 <= length shares)%nat ->
  0 <= nth 0 nums 0 ->
  Join_outer shares nums 0 (0%nat :: todo) acc = Panics DivisionByZero.
Proof.
  intros Hlen H0. cbn [Join_outer].
  assert ((nth 0 nums 0 <? 0) = false) as -> by (apply Z.ltb_ge; exact H0).
  destruct (length shares) as [ | [ | len]]; try lia.
  cbn [seq Join_inner Nat.eqb]. unfold Join_step.
  rewrite BigFacts.Mod_zero. reflexivity.
Qed.

(** C5, as stated, fails: the share numbers are checked one at a time, each
    at the start of its own iteration, after the entries before it have been
    interpolated.  With the modulus 0 the inner loop of the first entry
    panics before the negative number of the second entry is looked at. *)
Lemma Join_validation_counterexample :
  length [5; 6] = length [0; -1] /\
  Exists (fun n => n < 0) [0; -1] /\
  Join_inner [0; -1] 0 0 (seq 0 (length [5; 6])) 1 = Panics DivisionByZero /\
  Join [5; 6] [0; -1] 0 = Panics DivisionByZero /\
  Join [5; 6] [0; -1] 0 <> Returns (None, Some ErrNegativeShareNumber).
Proof.
  split; [reflexivity | split].
  - apply Exists_cons_tl, Exists_cons_hd. lia.
  - split; [reflexivity | split; [reflexivity | ]].
    intros H. vm_compute in H. discriminate.
Qed.

(** C5, amended.  [Join] returns the length error exactly when the two
    sequences differ in length.  For sequences of equal length it returns the
    negative share number error only when some share number is negative, and,
    the modulus being non-zero, whenever one is.  The numbers are checked
    during the interpolation, not before it: with the modulus 0 and a
    negative share number, the error is returned if the first number is
    negative, and otherwise the interpolation of the first entry panics.
    Whenever [Join] returns an error, it returns no secret with it. *)
Theorem Join_validation (shares shareNumbers : list Z) (modulus : Z) :
  (Join shares shareNumbers modulus = Returns (None, Some ErrLengthMismatch)
   <-> length shares <> length shareNumbers)
  /\ (length shares = length shareNumbers ->
      (Join shares shareNumbers modulus = Returns (None, Some ErrNegativeShareNumber)
       -> Exists (fun n => n < 0) shareNumbers)
      /\ (modulus <> 0 -> Exists (fun n => n < 0) shareNumbers ->
          Join shares shareNumbers modulus
          = Returns (None, Some ErrNegativeShareNumber))
      /\ (modulus = 0 -> Exists (fun n => n < 0) shareNumbers ->
          (nth 0 shareNumbers 0 < 0 ->
           Join shares shareNumbers modulus
           = Returns (None, Some ErrNegativeShareNumber))
          /\ (0 <= nth 0 shareNumbers 0 ->
              Join shares shareNumbers modulus = Panics DivisionByZero)))
  /\ (forall v e, Join shares shareNumbers modulus = Returns (v, Some e) -> v = None).
Proof.
  unfold Join.
  destruct (Nat.eqb_spec (length shares) (length shareNumbers)) as [E | N]; cbn [negb].
  - split; [ | split].
    + split; [ | contradiction].
      intros H. apply Join_outer_returns in H.
      destruct H as [(_ & He & _) | (s & Hv & _)]; discriminate.
    + intros _. split; [ | split].
      * intros H. apply Join_outer_returns in H.
        destruct H as [(_ & _ & Hex) | (s & Hv & _)]; [ | discriminate].
        apply Exists_negative_nth. rewrite <- E. exact Hex.
      * intros Hm Hex. apply Join_outer_negative; [exact Hm | ].
        rewrite E. apply Exists_negative_nth. exact Hex.
      * intros -> Hex.
        destruct shareNumbers as [ | n0 rest]; [inversion Hex | ].
        rewrite E. cbn [length seq nth]. split.
        -- intros Hneg. cbn [Join_outer nth].
           assert ((n0 <? 0) = true) as -> by (apply Z.ltb_lt; exact Hneg).
           reflexivity.
        -- intros Hpos. apply Join_outer_zero_first; [ | exact Hpos].
           rewrite E. cbn [length].
           inversion Hex as [? ? Hn0 | ? ? Hrest]; subst; [lia | ].
           destruct rest; [inversion Hrest | cbn [length]; lia].
    + intros v e H. apply Join_outer_returns in H.
      destruct H as [(Hv & _) | (s & _ & He)]; [exact Hv | discriminate].
  - split; [ | split].
    + split; [intros _; exact N | reflexivity].
    + intros E. contradiction.
    + intros v e H. injection H as <- _. reflexivity.
Qed.

(** With the modulus 0 the reduction in the first iteration panics before the
    negative share number of the second entry is looked at. *)
Example Join_zero_modulus_example :
  Join [5; 6] [0; -1] 0 = Panics DivisionByZero.
Proof. reflexivity. Qed.

Lemma Join_validation_witness :
  Join [5; 6] [0; -1] 7 = Returns (None, Some ErrNegativeShareNumber) /\
  Exists (fun n => n < 0) [0; -1].
Proof.
  assert (Hex : Exists (fun n => n < 0) [0; -1]).
  { apply Exists_cons_tl, Exists_cons_hd. lia. }
  split; [ | exact Hex].
  destruct (Join_validation [5; 6] [0; -1] 7) as (_ & H & _).
  destruct (H eq_refl) as (_ & H2 & _).
  apply H2; [discriminate | exact Hex].
Defined.

Lemma not_prime_4 : ~ Z.prime 4.
Proof.
  intros [_ Hp]. apply (Hp 2); [lia | exists 2; reflexivity].
Qed.

(** C2, as stated, fails: with the composite modulus 4 and the shares
    numbered 0 and 2, the points 1 and 3 differ by 2, which has the factor 2
    in common with 4, and [Join] returns a number and no error. *)
Lemma Join_no_inverse_counterexample :
  ~ Z.prime 4 /\
  Z.gcd (point 2 - point 0) 4 = 2 /\
  Join [1; 1] [0; 2] 4 = Returns (Some 0, None) /\
  (forall e, Join [1; 1] [0; 2] 4 <> Returns (None, Some e)).
Proof.
  split; [exact not_prime_4 | ].
  split; [reflexivity | ].
  split; [vm_compute; reflexivity | ].
  intros e H. vm_compute in H. discriminate.
Qed.

(** C2, amended.  [Join] has no error for a missing inverse: the only errors
    it returns are the two validation errors, and with sequences of equal
    length, share numbers that are not negative and a non-zero modulus it
    returns a number in [0, |modulus|) with a nil error, whatever the
    differences of the points have in common with the modulus. *)
Theorem Join_numeric_result (shares shareNumbers : list Z) (modulus : Z) :
  (forall v e, Join shares shareNumbers modulus = Returns (v, Some e) ->
               e = ErrLengthMismatch \/ e = ErrNegativeShareNumber)
  /\ (modulus <> 0 ->
      length shares = length shareNumbers ->
      Forall (fun n => 0 <= n) shareNumbers ->
      exists secret,
        Join shares shareNumbers modulus = Returns (Some secret, None)
        /\ 0 <= secret < Z.abs modulus).
Proof.
  split.
  - intros v e H. unfold Join in H.
    destruct (negb (Nat.eqb (length shares) (length shareNumbers))).
    + injection H as _ <-. left. reflexivity.
    + apply Join_outer_returns in H.
      destruct H as [(_ & He & _) | (s & _ & He)]; [ | discriminate].
      injection He as <-. right. reflexivity.
  - intros Hm Hlen Hpos. eexists. split.
    + apply Join_value; assumption.
    + apply Z.mod_pos_bound. lia.
Qed.

Lemma Join_numeric_result_witness :
  exists secret,
    Join [1; 1] [0; 2] 4 = Returns (Some secret, None) /\ 0 <= secret < Z.abs 4.
Proof.
  apply (proj2 (Join_numeric_result [1; 1] [0; 2] 4)).
  - discriminate.
  - reflexivity.
  - repeat constructor; lia.
Defined.

(** C3, as stated, fails: adding the modulus once does not bring every
    difference of two points into [0, modulus), nor every coefficient.  With
    share numbers 9 and 0 and modulus 3 the quantity handed to [GCD] is -6,
    the coefficient that [GCD] writes is a zero with the sign set, and the
    number multiplied into the accumulator is 3. *)
Lemma difference_range_counterexample :
  0 <= 9 /\ 0 <= 0 /\ 0 < 3 /\
  difference (point 0) (point 9) 3 = -6 /\
  ~ (0 <= difference (point 0) (point 9) 3 < 3) /\
  Big.GCD (-6) 3 = (3, Big.mkInt true 0, 1) /\
  inverse (difference (point 0) (point 9) 3) 3 = 3 /\
  ~ (0 <= inverse (difference (point 0) (point 9) 3) 3 < 3) /\
  Join_step [9; 0] 3 0 1 1 = Returns ((1 * point 0 * 3) mod 3).
Proof.
  split; [lia | split; [lia | split; [lia | ]]].
  split; [reflexivity | split].
  - vm_compute. intros [H _]. apply H. reflexivity.
  - split; [reflexivity | split; [reflexivity | split; [ | reflexivity]]].
    vm_compute. intros [_ H]. discriminate.
Qed.

(** C3, amended.  For a positive modulus the inner loop of [Join] multiplies
    the accumulator by the point [x_j] and by the normalized coefficient and
    reduces it.  The quantity inverted is [x_j - x_i], plus the modulus when
    negative; when [-modulus <= x_j - x_i < modulus] it lies in [0, modulus),
    and so does the coefficient of [GCD], plus the modulus when its sign is
    set.  In general that coefficient lies in [0, modulus], and it is the
    modulus itself exactly when the quantity inverted is a negative multiple
    of the modulus. *)
Theorem Join_step_normalized (shareNumbers : list Z) (modulus : Z) (i j : nat) (c : Z) :
  0 < modulus ->
  let xi := point (nth i shareNumbers 0) in
  let xj := point (nth j shareNumbers 0) in
  let bigJ := difference xj xi modulus in
  Join_step shareNumbers modulus i j c
  = Returns ((c * xj * inverse bigJ modulus) mod modulus)
  /\ bigJ = (if xj - xi <? 0 then xj - xi + modulus else xj - xi)
  /\ (- modulus <= xj - xi < modulus ->
      0 <= bigJ < modulus /\ 0 <= inverse bigJ modulus < modulus)
  /\ 0 <= inverse bigJ modulus <= modulus
  /\ (inverse bigJ modulus = modulus <-> bigJ < 0 /\ (modulus | bigJ)).
Proof.
  intros Hm xi xj bigJ. split; [ | split; [ | split; [ | split]]].
  - unfold Join_step. rewrite BigFacts.Mod_nonzero by lia.
    rewrite Z.abs_eq by lia. reflexivity.
  - apply difference_eq.
  - intros Hd.
    assert (HJ : 0 <= bigJ < modulus).
    { unfold bigJ. rewrite difference_eq.
      destruct (Z.ltb_spec (xj - xi) 0); lia. }
    split; [exact HJ | ].
    apply inverse_range_nonneg; [exact Hm | apply HJ].
  - apply inverse_range. exact Hm.
  - apply inverse_modulus. exact Hm.
Qed.

Lemma Join_step_normalized_witness :
  Join_step [0; 2] 7 0 1 1 = Returns ((1 * 3 * inverse 2 7) mod 7)
  /\ 0 <= difference (point 2) (point 0) 7 < 7
  /\ 0 <= inverse (difference (point 2) (point 0) 7) 7 < 7.
Proof.
  destruct (Join_step_normalized [0; 2] 7 0 1 1 eq_refl) as (H1 & _ & H3 & _).
  split; [exact H1 | ].
  apply H3. vm_compute. split; [discriminate | reflexivity].
Defined.

(* ================================================================== *)
(** * randomNumber *)

Section RandomNumber.

Context {St : Type} (next : St -> St * (io_error + byte)).

Lemma randomNumber_loop_range (max : Z) (k : nat) (r : Z) :
  forall (fuel : nat) (s : St) (n0 : Z) (s' : St) (n : Z),
    randomNumber_loop next fuel s max k r n0 = Some (s', Returns (n, None)) ->
    0 <= n < max.
Proof.
  induction fuel as [ | fuel IH]; intros s n0 s' n H; cbn [randomNumber_loop] in H.
  - discriminate.
  - destruct (ReadFull next s k) as [s1 [e | [ | b0 rest]]]; try discriminate.
    rewrite BigFacts.Cmp_lt in H.
    destruct (Z.ltb_spec (Big.SetBytes (byte_and b0 (Z.to_N (Z.shiftl 1 r - 1)) :: rest)) max)
      as [L | G].
    + injection H as _ <-. split; [apply BigFacts.SetBytes_nonneg | exact L].
    + eapply IH, H.
Qed.

(** Every error of the loop is the error of a failed [ReadFull]. *)
Lemma randomNumber_loop_error (max : Z) (k : nat) (r : Z) :
  forall (fuel : nat) (s : St) (n0 : Z) (s' : St) (n : Z) (e : error),
    randomNumber_loop next fuel s max k r n0 = Some (s', Returns (n, Some e)) ->
    exists s0 e', e = ErrRandomSource e' /\ ReadFull next s0 k = (s', inl e').
Proof.
  induction fuel as [ | fuel IH]; intros s n0 s' n e H; cbn [randomNumber_loop] in H.
  - discriminate.
  - destruct (ReadFull next s k) as [s1 [e1 | [ | b0 rest]]] eqn:Hread.
    + injection H as <- _ <-. exists s, e1. split; [reflexivity | exact Hread].
    + discriminate.
    + destruct (Big.Cmp _ max <? 0); [discriminate | ].
      eapply IH, H.
Qed.

(** More fuel does not change what the loop has come back with. *)
Lemma randomNumber_loop_fuel (max : Z) (k : nat) (r : Z) :
  forall (fuel : nat) (s : St) (n0 : Z) res (extra : nat),
    randomNumber_loop next fuel s max k r n0 = Some res ->
    randomNumber_loop next (fuel + extra) s max k r n0 = Some res.
Proof.
  induction fuel as [ | fuel IH]; intros s n0 res extra H; cbn [randomNumber_loop] in H.
  - discriminate.
  - cbn [Nat.add randomNumber_loop].
    destruct (ReadFull next s k) as [s1 [e1 | [ | b0 rest]]]; try exact H.
    destruct (Big.Cmp _ max <? 0); [exact H | ].
    apply IH, H.
Qed.

Lemma randomNumber_value_range (fuel : nat) (s : St) (max : Z) (s' : St) (n : Z) :
  randomNumber next fuel s max = Some (s', Returns (n, None)) -> 0 <= n < max.
Proof. unfold randomNumber. apply randomNumber_loop_range. Qed.

Lemma randomNumber_error_source (fuel : nat) (s : St) (max : Z) (s' : St) (n : Z)
  (e : error) :
  randomNumber next fuel s max = Some (s', Returns (n, Some e)) ->
  exists e', e = ErrRandomSource e'.
Proof.
  unfold randomNumber. intros H.
  destruct (randomNumber_loop_error _ _ _ _ _ _ _ _ _ H) as (_ & e' & -> & _).
  exists e'. reflexivity.
Qed.

(** C6.  A value that [randomNumber] returns without an error lies in
    [0, max), whatever [max] and the reader are.  In every iteration a
    failed read makes the loop return the error of the read, and every
    error that [randomNumber] returns is the error of a failed read. *)
Theorem randomNumber_range (fuel : nat) (s : St) (max : Z) :
  (forall s' n,
      randomNumber next fuel s max = Some (s', Returns (n, None)) ->
      0 <= n < max)
  /\ (forall k r n0 s' e,
        ReadFull next s k = (s', inl e) ->
        randomNumber_loop next (S fuel) s max k r n0
        = Some (s', Returns (n0, Some (ErrRandomSource e))))
  /\ (forall s' e,
        ReadFull next s (sample_bytes max) = (s', inl e) ->
        randomNumber next (S fuel) s max
        = Some (s', Returns (0, Some (ErrRandomSource e))))
  /\ (forall s' n e,
        randomNumber next fuel s max = Some (s', Returns (n, Some e)) ->
        exists s0 e',
          e = ErrRandomSource e'
          /\ ReadFull next s0 (sample_bytes max) = (s', inl e')).
Proof.
  repeat split.
  - eapply randomNumber_loop_range; eassumption.
  - eapply randomNumber_loop_range; eassumption.
  - intros k r n0 s' e H. cbn [randomNumber_loop]. rewrite H. reflexivity.
  - intros s' e H. unfold randomNumber, sample_bytes in *.
    cbn [randomNumber_loop]. rewrite H. reflexivity.
  - intros s' n e H. unfold randomNumber in H.
    eapply randomNumber_loop_error, H.
Qed.

End RandomNumber.

Lemma randomNumber_range_witness :
  randomNumber buffer_next 3 [x07; x05; x01; x09] 5 = Some ([x09], Returns (1, None))
  /\ 0 <= 1 < 5.
Proof.
  split; [reflexivity | ].
  apply (proj1 (randomNumber_range buffer_next 3 [x07; x05; x01; x09] 5) [x09] 1).
  reflexivity.
Defined.

(* ================================================================== *)
(** * Split *)

Lemma Split_shares_value (a : list Z) (k : nat) (m : Z) (todo : list nat) :
  m <> 0 ->
  Split_shares a k m todo
  = Returns (map (fun i => Split_sum a k (Z.of_nat i) mod Z.abs m) todo).
Proof.
  intros Hm. induction todo as [ | i todo IH]; cbn [Split_shares map].
  - reflexivity.
  - rewrite BigFacts.Mod_nonzero, IH by exact Hm. reflexivity.
Qed.

Lemma Split_shares_zero (a : list Z) (k : nat) (i : nat) (todo : list nat) :
  Split_shares a k 0 (i :: todo) = Panics DivisionByZero.
Proof. reflexivity. Qed.

Section SplitFacts.

Context {St : Type} (next : St -> St * (io_error + byte)).

Lemma Split_coefficients_error (fuel : nat) (mm1 : Z) :
  forall (count : nat) (s : St) (a : list Z) s' a' e,
    Split_coefficients next fuel s mm1 count a = Some (s', Returns (a', Some e)) ->
    exists e', e = ErrRandomSource e'.
Proof.
  induction count as [ | count IH]; intros s a s' a' e H;
    cbn [Split_coefficients] in H.
  - discriminate.
  - destruct (randomNumber next fuel s mm1) as [[s1 [[ai [e1 | ]] | p]] | ] eqn:Hr;
      try discriminate.
    + injection H as _ _ <-.
      eapply randomNumber_error_source, Hr.
    + eapply IH, H.
Qed.

Lemma Split_coefficients_samples (fuel : nat) (mm1 : Z) :
  forall (count : nat) (s : St) (a : list Z) s' a',
    Split_coefficients next fuel s mm1 count a = Some (s', Returns (a', None)) ->
    exists rs,
      length rs = count
      /\ samples next fuel s mm1 rs s'
      /\ a' = a ++ map (fun r => r + 1) rs.
Proof.
  induction count as [ | count IH]; intros s a s' a' H;
    cbn [Split_coefficients] in H.
  - injection H as <- <-. exists []. cbn. rewrite app_nil_r. repeat split.
  - destruct (randomNumber next fuel s mm1) as [[s1 [[ai [e1 | ]] | p]] | ] eqn:Hr;
      try discriminate.
    destruct (IH _ _ _ _ H) as (rs & Hlen & Hs & Ha).
    exists (ai :: rs). cbn [length samples map]. repeat split.
    + lia.
    + exists s1. split; [exact Hr | exact Hs].
    + rewrite Ha, <- app_assoc. reflexivity.
Qed.

Lemma samples_range (fuel : nat) (max : Z) :
  forall (rs : list Z) (s s' : St),
    samples next fuel s max rs s' -> Forall (fun r => 0 <= r < max) rs.
Proof.
  induction rs as [ | r rs IH]; intros s s' H; constructor.
  - destruct H as (s1 & Hr & _).
    exact (randomNumber_value_range next fuel s max _ _ Hr).
  - destruct H as (s1 & _ & H). eapply IH, H.
Qed.

(** What a successful [Split] has done. *)
Lemma Split_success (fuel : nat) (s s' : St) (secret modulus k n : Z)
  (shares : list Z) :
  Split next fuel s secret modulus k n = Some (s', Returns (shares, None)) ->
  1 <= k <= n /\ secret < modulus /\ modulus <> 0 /\
  exists rs,
    length rs = Z.to_nat (k - 1)
    /\ samples next fuel s (modulus - 1) rs s'
    /\ shares = map (fun i => Split_sum (secret :: map (fun r => r + 1) rs)
                                (Z.to_nat k) (Z.of_nat i) mod Z.abs modulus)
                  (seq 1 (Z.to_nat n)).
Proof.
  unfold Split. intros H.
  destruct (Z.ltb_spec k 1) as [Hk | Hk]; cbn [orb] in H; [discriminate | ].
  destruct (Z.ltb_spec n k) as [Hn | Hn]; [discriminate | ].
  rewrite BigFacts.Cmp_ge in H.
  destruct (Z.leb_spec modulus secret) as [Hs | Hs]; [discriminate | ].
  destruct (Split_coefficients next fuel s (modulus - 1) (Z.to_nat (k - 1)) [secret])
    as [[s1 [[a [e | ]] | p]] | ] eqn:Hc; try discriminate.
  destruct (Split_coefficients_samples _ _ _ _ _ _ _ Hc) as (rs & Hlen & Hsam & Ha).
  assert (Hm : modulus <> 0).
  { intros ->. replace (Z.to_nat n) with (S (Z.to_nat (n - 1))) in H by lia.
    cbn [seq] in H. rewrite Split_shares_zero in H. discriminate. }
  rewrite Split_shares_value in H by exact Hm. cbn [bind] in H.
  injection H as <- <-.
  repeat split; try lia.
  exists rs. repeat split; try assumption.
  rewrite Ha. reflexivity.
Qed.


(** C4.  [Split] returns the parameter error exactly when [k < 1] or
    [n < k], and the error for a secret that is too large exactly when
    the parameters pass and [secret >= modulus]; in both cases whatever the
    fuel, with the reader in the state it was given in and with no
    shares. *)
Theorem Split_validation (fuel : nat) (s : St) (secret modulus k n : Z) :
  (forall s' shares,
      Split next fuel s secret modulus k n
      = Some (s', Returns (shares, Some ErrInvalidParameters))
      <-> (k < 1 \/ n < k) /\ s' = s /\ shares = [])
  /\ (forall s' shares,
        Split next fuel s secret modulus k n
        = Some (s', Returns (shares, Some ErrSecretTooLarge))
        <-> (1 <= k <= n /\ secret >= modulus) /\ s' = s /\ shares = []).
Proof.
  unfold Split. rewrite BigFacts.Cmp_ge.
  destruct (Z.ltb_spec k 1) as [Hk | Hk]; cbn [orb].
  { split; intros s' shares; split.
    - intros H. injection H as <- <-. repeat split. left. exact Hk.
    - intros (_ & -> & ->). reflexivity.
    - discriminate.
    - intros ((Hk' & _) & _). lia. }
  destruct (Z.ltb_spec n k) as [Hn | Hn].
  { split; intros s' shares; split.
    - intros H. injection H as <- <-. repeat split. right. exact Hn.
    - intros (_ & -> & ->). reflexivity.
    - discriminate.
    - intros ((Hk' & _) & _). lia. }
  destruct (Z.leb_spec modulus secret) as [Hs | Hs].
  { split; intros s' shares; split.
    - discriminate.
    - intros (Hkn & _). lia.
    - intros H. injection H as <- <-. repeat split; lia.
    - intros (_ & -> & ->). reflexivity. }
  destruct (Split_coefficients next fuel s (modulus - 1) (Z.to_nat (k - 1)) [secret])
    as [[s1 [[a [e | ]] | p]] | ] eqn:Hc.
  - apply Split_coefficients_error in Hc. destruct Hc as [e' ->].
    split; intros s' shares; split; try discriminate.
    + intros (Hkn & _). lia.
    + intros ((_ & Hge) & _). lia.
  - destruct (Split_shares a (Z.to_nat k) modulus (seq 1 (Z.to_nat n)));
      cbn [bind]; split; intros s' shares; split; try discriminate.
    all: try (intros (Hkn & _); lia); try (intros ((_ & Hge) & _); lia).
  - split; intros s' shares; split; try discriminate.
    + intros (Hkn & _). lia.
    + intros ((_ & Hge) & _). lia.
  - split; intros s' shares; split; try discriminate.
    + intros (Hkn & _). lia.
    + intros ((_ & Hge) & _). lia.
Qed.

End SplitFacts.

Lemma Split_validation_witness :
  Split buffer_next 0 [x01] 5 7 0 3
  = Some ([x01], Returns ([], Some ErrInvalidParameters))
  /\ Split buffer_next 0 [x01] 9 7 2 3
     = Some ([x01], Returns ([], Some ErrSecretTooLarge)).
Proof.
  split.
  - apply (proj1 (Split_validation buffer_next 0 [x01] 5 7 0 3)).
    repeat split. left. lia.
  - apply (proj2 (Split_validation buffer_next 0 [x01] 9 7 2 3)).
    repeat split; lia.
Defined.

Lemma fold_left_add {A : Type} (h : A -> Z) (l : list A) (acc : Z) :
  fold_left (fun t j => t + h j) l acc = acc + Zsum (map h l).
Proof.
  revert acc. induction l as [ | j l IH]; intros acc; cbn [fold_left map].
  - change (Zsum []) with 0. lia.
  - rewrite IH. change (Zsum (h j :: map h l)) with (h j + Zsum (map h l)). lia.
Qed.

Lemma Split_sum_polynomial (a : list Z) (x : Z) :
  Split_sum a (length a) x = polynomial a x.
Proof.
  unfold Split_sum, polynomial. rewrite fold_left_add, Z.add_0_l.
  f_equal. apply map_ext. intros j. rewrite BigFacts.Exp_pow. ring.
Qed.

Lemma nth_map_seq (f : nat -> Z) (len i : nat) :
  (i < len)%nat -> nth i (map f (seq 1 len)) 0 = f (S i).
Proof.
  intros Hi. rewrite nth_indep with (d' := f 0%nat)
    by (rewrite length_map, length_seq; exact Hi).
  rewrite map_nth, seq_nth by exact Hi. reflexivity.
Qed.

Section SplitShape.

Context {St : Type} (next : St -> St * (io_error + byte)).

(** C10, amended.  With the bound 0 [randomNumber] asks for no byte at
    all, so the read succeeds and the reader stays as it is, and the access
    to [bytes[0]] panics in the first iteration: no candidate is compared,
    and the call does not loop.  [Split] with modulus 1 and [k >= 2] ends
    with the same panic.  For no bound [max <= 0] does [randomNumber]
    return a value without an error. *)
Theorem randomNumber_zero_bound (fuel : nat) (s : St) :
  ReadFull next s (sample_bytes 0) = (s, inr [])
  /\ randomNumber next (S fuel) s 0 = Some (s, Panics IndexOutOfRange)
  /\ (forall secret k n,
        secret < 1 -> 2 <= k <= n ->
        Split next (S fuel) s secret 1 k n = Some (s, Panics IndexOutOfRange))
  /\ (forall max s' v,
        max <= 0 ->
        randomNumber next fuel s max <> Some (s', Returns (v, None))).
Proof.
  split; [reflexivity | split; [reflexivity | split]].
  - intros secret k n Hs Hk. unfold Split.
    assert ((k <? 1) = false) as -> by (apply Z.ltb_ge; lia).
    assert ((n <? k) = false) as -> by (apply Z.ltb_ge; lia).
    rewrite BigFacts.Cmp_ge.
    assert ((1 <=? secret) = false) as -> by (apply Z.leb_gt; lia).
    cbn [orb]. replace (Z.to_nat (k - 1)) with (S (Z.to_nat (k - 2))) by lia.
    reflexivity.
  - intros max s' v Hmax H.
    apply randomNumber_value_range in H. lia.
Qed.

(** C7.  When [Split] succeeds with a positive modulus, it has drawn
    [k - 1] samples [rs] below [modulus - 1], one after the other, the
    coefficients are the secret followed by the samples plus one, each
    of these in [1, modulus - 1], and there are [n] shares, the share at
    position [i - 1] being the polynomial at [i] reduced modulo the
    modulus, in [0, modulus). *)
Theorem Split_shares_shape (fuel : nat) (s s' : St) (secret modulus k n : Z)
  (shares : list Z) :
  0 < modulus ->
  Split next fuel s secret modulus k n = Some (s', Returns (shares, None)) ->
  exists rs,
    let a := secret :: map (fun r => r + 1) rs in
    length shares = Z.to_nat n
    /\ length a = Z.to_nat k
    /\ nth 0 a 0 = secret
    /\ length rs = Z.to_nat (k - 1)
    /\ samples next fuel s (modulus - 1) rs s'
    /\ Forall (fun c => 1 <= c <= modulus - 1) (map (fun r => r + 1) rs)
    /\ (forall i, 1 <= i <= n ->
          nth (Z.to_nat (i - 1)) shares 0 = polynomial a i mod modulus
          /\ 0 <= nth (Z.to_nat (i - 1)) shares 0 < modulus).
Proof.
  intros Hm H. apply Split_success in H.
  destruct H as (Hkn & Hs & _ & rs & Hlen & Hsam & ->).
  exists rs. cbv zeta.
  assert (Hla : length (secret :: map (fun r => r + 1) rs) = Z.to_nat k).
  { cbn [length]. rewrite length_map, Hlen. lia. }
  assert (Hnth : forall i, 1 <= i <= n ->
            nth (Z.to_nat (i - 1))
              (map (fun i0 => Split_sum (secret :: map (fun r => r + 1) rs)
                                (Z.to_nat k) (Z.of_nat i0) mod Z.abs modulus)
                 (seq 1 (Z.to_nat n))) 0
            = polynomial (secret :: map (fun r => r + 1) rs) i mod modulus).
  { intros i Hi. rewrite nth_map_seq by lia.
    rewrite <- Hla, Split_sum_polynomial, Z.abs_eq by lia.
    do 2 f_equal. lia. }
  split; [rewrite length_map, length_seq; reflexivity | ].
  split; [exact Hla | ].
  split; [reflexivity | ].
  split; [exact Hlen | ].
  split; [exact Hsam | ].
  split.
  - apply Forall_map. eapply Forall_impl; [ | eapply samples_range, Hsam].
    cbn. intros r Hr. lia.
  - intros i Hi. rewrite Hnth by exact Hi.
    split; [reflexivity | apply Z.mod_pos_bound; exact Hm].
Qed.

End SplitShape.

(** [Mod] is Euclidean: with a negative modulus, which passes the checks
    for [k = 1], the share lies in [0, |modulus|). *)
Example Split_negative_modulus_example :
  Split buffer_next 0 [] (-5) (-3) 1 1 = Some ([], Returns ([1], None)).
Proof. reflexivity. Qed.

(** C10, as stated, fails: with the bound 0 the call comes back at once, with
    a panic, and so does [Split] with modulus 1 and [k = 2]. *)
Lemma randomNumber_zero_counterexample :
  randomNumber buffer_next 1 [x01; x02] 0 = Some ([x01; x02], Panics IndexOutOfRange)
  /\ Split buffer_next 1 [x01; x02] 0 1 2 2 = Some ([x01; x02], Panics IndexOutOfRange)
  /\ ~ (forall fuel, randomNumber buffer_next fuel [x01; x02] 0 = None)
  /\ ~ (forall fuel, Split buffer_next fuel [x01; x02] 0 1 2 2 = None).
Proof.
  split; [reflexivity | split; [reflexivity | split]].
  - intros H. specialize (H 1%nat). discriminate.
  - intros H. specialize (H 1%nat). discriminate.
Qed.

Lemma randomNumber_zero_bound_witness :
  Split buffer_next 1 [x01; x02] 0 1 2 2 = Some ([x01; x02], Panics IndexOutOfRange).
Proof.
  apply (proj1 (proj2 (proj2 (randomNumber_zero_bound buffer_next 0 [x01; x02])))); lia.
Defined.

Lemma Split_shares_shape_witness :
  exists rs,
    length [1; 0; 0; 1; 3] = Z.to_nat 5
    /\ samples buffer_next 1 [xc8; x03; x07] 6 rs [x07]
    /\ nth (Z.to_nat (2 - 1)) [1; 0; 0; 1; 3] 0
       = polynomial (3 :: map (fun r => r + 1) rs) 2 mod 7.
Proof.
  destruct (Split_shares_shape buffer_next 1 [xc8; x03; x07] [x07] 3 7 3 5
              [1; 0; 0; 1; 3] eq_refl eq_refl)
    as (rs & H1 & _ & _ & _ & H5 & _ & H7).
  exists rs. split; [exact H1 | split; [exact H5 | ]].
  apply H7. lia.
Defined.

(* ================================================================== *)
(** * Join does not depend on the order of the shares *)

Lemma lagrange_sum_pre_perm (m X : Z) (l : list (Z * Z)) :
  forall pre pre',
    Permutation pre pre' -> lagrange_sum m X pre l = lagrange_sum m X pre' l.
Proof.
  induction l as [ | [x s] post IH]; intros pre pre' Hp; cbn [lagrange_sum].
  - reflexivity.
  - f_equal.
    + f_equal. apply lagrange_term_perm, Permutation_map, Permutation_app_tail, Hp.
    + apply IH, Permutation_app_tail, Hp.
Qed.

Lemma lagrange_sum_perm (m X : Z) (l l' : list (Z * Z)) :
  Permutation l l' ->
  forall pre pre',
    Permutation pre pre' -> lagrange_sum m X pre l = lagrange_sum m X pre' l'.
Proof.
  induction 1 as [ | [x s] l l' Hl IH | [x s] [y t] l | l1 l2 l3 _ IH1 _ IH2];
    intros pre pre' Hp.
  - reflexivity.
  - cbn [lagrange_sum]. f_equal.
    + f_equal. apply lagrange_term_perm, Permutation_map, Permutation_app; assumption.
    + apply IH, Permutation_app_tail, Hp.
  - cbn [lagrange_sum].
    assert (H1 : lagrange_term m X y (map fst (pre ++ (x, s) :: l))
                 = lagrange_term m X y (map fst ((pre' ++ [(x, s)]) ++ l))).
    { apply lagrange_term_perm, Permutation_map.
      rewrite <- app_assoc. apply Permutation_app_tail, Hp. }
    assert (H2 : lagrange_term m X x (map fst ((pre ++ [(y, t)]) ++ l))
                 = lagrange_term m X x (map fst (pre' ++ (y, t) :: l))).
    { apply lagrange_term_perm, Permutation_map.
      rewrite <- app_assoc. apply Permutation_app_tail, Hp. }
    assert (H3 : lagrange_sum m X ((pre ++ [(y, t)]) ++ [(x, s)]) l
                 = lagrange_sum m X ((pre' ++ [(x, s)]) ++ [(y, t)]) l).
    { apply lagrange_sum_pre_perm. rewrite <- !app_assoc.
      apply Permutation_app; [exact Hp | apply perm_swap]. }
    rewrite H1, H2, H3. ring.
  - rewrite (IH1 pre pre) by apply Permutation_refl. apply IH2, Hp.
Qed.

Lemma points_as_map (shares nums : list Z) :
  points shares nums = map (fun p => (point (snd p), fst p)) (combine shares nums).
Proof.
  unfold points. revert nums.
  induction shares as [ | s shares IH]; intros [ | n nums]; cbn; try reflexivity.
  f_equal. apply IH.
Qed.

Lemma Join_inner_zero (nums : list Z) (i : nat) :
  forall (js : list nat) (c : Z),
    (exists c', Join_inner nums 0 i js c = Returns c')
    \/ Join_inner nums 0 i js c = Panics DivisionByZero.
Proof.
  induction js as [ | j js IH]; intros c; cbn [Join_inner].
  - left. exists c. reflexivity.
  - destruct (Nat.eqb i j); [apply IH | ].
    right. unfold Join_step. rewrite BigFacts.Mod_zero. reflexivity.
Qed.

Lemma Join_outer_zero (shares nums : list Z) :
  Forall (fun n => 0 <= n) nums ->
  forall (todo : list nat) (acc : Z),
    Join_outer shares nums 0 todo acc = Panics DivisionByZero.
Proof.
  intros Hpos. induction todo as [ | i todo IH]; intros acc; cbn [Join_outer].
  - reflexivity.
  - assert (Hi : 0 <= nth i nums 0).
    { destruct (Nat.lt_ge_cases i (length nums)) as [L | G].
      - rewrite Forall_forall in Hpos. apply Hpos, nth_In, L.
      - rewrite nth_overflow by exact G. lia. }
    assert ((nth i nums 0 <? 0) = false) as -> by (apply Z.ltb_ge; exact Hi).
    destruct (Join_inner_zero nums i (seq 0 (length shares)) 1) as [[c ->] | ->];
      cbn [bind]; [apply IH | reflexivity].
Qed.

Lemma Join_zero_modulus (shares nums : list Z) :
  length shares = length nums ->
  Forall (fun n => 0 <= n) nums ->
  Join shares nums 0 = Panics DivisionByZero.
Proof.
  intros Hlen Hpos. unfold Join. rewrite Hlen, Nat.eqb_refl. cbn [negb].
  apply Join_outer_zero, Hpos.
Qed.

(** C8.  For sequences of equal length with share numbers that are not
    negative, [Join] comes back with the same result, whether a value or a
    failure, for every reordering of the shares together with their
    numbers. *)
Theorem Join_order_independent (shares nums shares' nums' : list Z) (modulus : Z) :
  length shares = length nums ->
  length shares' = length nums' ->
  Forall (fun n => 0 <= n) nums ->
  Permutation (combine shares nums) (combine shares' nums') ->
  Join shares' nums' modulus = Join shares nums modulus.
Proof.
  intros Hlen Hlen' Hpos Hperm.
  assert (Hpos' : Forall (fun n => 0 <= n) nums').
  { rewrite <- (map_snd_combine shares' nums' Hlen').
    rewrite <- (map_snd_combine shares nums Hlen) in Hpos.
    eapply Permutation_Forall; [ | exact Hpos].
    apply Permutation_map, Hperm. }
  destruct (Z.eq_dec modulus 0) as [-> | Hm].
  - rewrite !Join_zero_modulus by assumption. reflexivity.
  - rewrite !Join_value by assumption.
    rewrite !points_as_map.
    rewrite (lagrange_sum_perm modulus 0 _ _
               (Permutation_map (fun p => (point (snd p), fst p)) Hperm)
               [] [] (Permutation_refl _)).
    reflexivity.
Qed.

Lemma Join_order_independent_witness :
  Join [0; 1; 0] [2; 0; 1] 7 = Join [1; 0; 0] [0; 1; 2] 7.
Proof.
  apply Join_order_independent.
  - reflexivity.
  - reflexivity.
  - repeat constructor; lia.
  - cbn [combine].
    apply Permutation_trans with (l' := [(1, 0); (0, 2); (0, 1)]).
    + apply perm_skip, perm_swap.
    + apply perm_swap.
Defined.


(* ================================================================== *)
(** * Polynomials and their roots modulo a prime *)

Lemma peval_cons (c : Z) (cs : list Z) (x : Z) :
  peval (c :: cs) x = c + x * peval cs x.
Proof. reflexivity. Qed.

Lemma peval_padd (a b : list Z) (x : Z) :
  peval (padd a b) x = peval a x + peval b x.
Proof.
  revert b. induction a as [ | c a IH]; intros [ | d b]; cbn [padd].
  - reflexivity.
  - change (peval [] x) with 0. lia.
  - change (peval [] x) with 0. lia.
  - rewrite !peval_cons, IH. ring.
Qed.

Lemma length_padd (a b : list Z) :
  length (padd a b) = Nat.max (length a) (length b).
Proof.
  revert b. induction a as [ | c a IH]; intros [ | d b]; cbn [padd length Nat.max];
    try reflexivity.
  rewrite IH. reflexivity.
Qed.

Lemma peval_scale (c : Z) (a : list Z) (x : Z) :
  peval (map (Z.mul c) a) x = c * peval a x.
Proof.
  induction a as [ | d a IH]; cbn [map].
  - change (peval [] x) with 0. lia.
  - rewrite !peval_cons, IH. ring.
Qed.

Lemma is_poly_ext (k : nat) (g h : Z -> Z) :
  (forall x, g x = h x) -> is_poly k g -> is_poly k h.
Proof.
  intros E (cs & Hlen & Hg). exists cs. split; [exact Hlen | ].
  intros x. rewrite <- E. apply Hg.
Qed.

Lemma is_poly_zero (k : nat) : is_poly k (fun _ => 0).
Proof. exists []. split; [cbn; lia | reflexivity]. Qed.

Lemma is_poly_const (k : nat) (c : Z) : is_poly (S k) (fun _ => c).
Proof.
  exists [c]. split; [cbn; lia | ]. intros x. rewrite peval_cons.
  change (peval [] x) with 0. lia.
Qed.

Lemma is_poly_add (k : nat) (g h : Z -> Z) :
  is_poly k g -> is_poly k h -> is_poly k (fun x => g x + h x).
Proof.
  intros (a & Ha & Hg) (b & Hb & Hh). exists (padd a b). split.
  - rewrite length_padd. lia.
  - intros x. rewrite peval_padd, Hg, Hh. reflexivity.
Qed.

Lemma is_poly_scale (k : nat) (c : Z) (g : Z -> Z) :
  is_poly k g -> is_poly k (fun x => g x * c).
Proof.
  intros (a & Ha & Hg). exists (map (Z.mul c) a). split.
  - rewrite length_map. exact Ha.
  - intros x. rewrite peval_scale, Hg. ring.
Qed.

Lemma is_poly_sub (k : nat) (g h : Z -> Z) :
  is_poly k g -> is_poly k h -> is_poly k (fun x => g x - h x).
Proof.
  intros Hg Hh.
  apply is_poly_ext with (g := fun x => g x + h x * -1); [intros x; ring | ].
  apply is_poly_add; [exact Hg | apply is_poly_scale, Hh].
Qed.

(** Multiplying by the linear factor [(y - X) * c] adds one coefficient. *)
Lemma is_poly_mul_linear (k : nat) (y c : Z) (g : Z -> Z) :
  is_poly k g -> is_poly (S k) (fun x => (y - x) * c * g x).
Proof.
  intros (a & Ha & Hg).
  exists (padd (map (Z.mul (y * c)) a) (0 :: map (Z.mul (- c)) a)). split.
  - rewrite length_padd. cbn [length]. rewrite !length_map. lia.
  - intros x. rewrite peval_padd, peval_cons, !peval_scale, Hg. ring.
Qed.

Lemma Zsum_cons (a : Z) (l : list Z) : Zsum (a :: l) = a + Zsum l.
Proof. reflexivity. Qed.

Lemma Zsum_map_scale {A : Type} (x : Z) (h : A -> Z) (l : list A) :
  Zsum (map (fun j => x * h j) l) = x * Zsum (map h l).
Proof.
  induction l as [ | j l IH]; cbn [map].
  - change (Zsum []) with 0. lia.
  - rewrite !Zsum_cons, IH. ring.
Qed.

Lemma polynomial_peval (a : list Z) (x : Z) : polynomial a x = peval a x.
Proof.
  unfold polynomial. induction a as [ | c a IH].
  - reflexivity.
  - cbn [length seq map]. rewrite Zsum_cons, peval_cons, <- IH.
    rewrite <- seq_shift, map_map.
    rewrite <- Zsum_map_scale. cbn [nth]. rewrite Z.pow_0_r.
    f_equal; [ring | ]. f_equal. apply map_ext. intros j.
    rewrite Nat2Z.inj_succ, Z.pow_succ_r by lia. ring.
Qed.

Lemma pquot_spec (r : Z) (cs : list Z) (x : Z) :
  peval cs x = (x - r) * peval (pquot r cs) x + peval cs r.
Proof.
  induction cs as [ | c cs IH].
  - cbn. lia.
  - cbn [pquot]. destruct cs as [ | d cs].
    + rewrite !peval_cons. change (peval [] x) with 0. change (peval [] r) with 0. ring.
    + rewrite (peval_cons c), (peval_cons c (d :: cs) r), (peval_cons (peval (d :: cs) r)).
      rewrite IH at 1. ring.
Qed.

Lemma length_pquot (r : Z) (cs : list Z) :
  length (pquot r cs) = Nat.pred (length cs).
Proof.
  induction cs as [ | c cs IH]; [reflexivity | ].
  cbn [pquot]. destruct cs as [ | d cs]; [reflexivity | ].
  cbn [length] in *. rewrite IH. reflexivity.
Qed.

Lemma divide_cong_mod (p a b : Z) : 0 < p -> (p | a - b) -> a mod p = b mod p.
Proof.
  intros Hp H. rewrite <- (Z.abs_eq p) by lia. apply cong_mod_eq. exact H.
Qed.

(** A polynomial of degree below [k] with [k] roots that are distinct modulo
    the prime [p] vanishes modulo [p] everywhere. *)
Lemma poly_roots (p : Z) :
  Z.prime p ->
  forall (k : nat) (g : Z -> Z),
    is_poly k g ->
    forall rs : list Z,
      length rs = k ->
      NoDup (map (fun r => r mod p) rs) ->
      (forall r, In r rs -> (p | g r)) ->
      forall x, (p | g x).
Proof.
  intros Hp. pose proof (Z.prime_ge_2 p Hp) as Hp2.
  induction k as [ | k IH]; intros g (cs & Hlen & Hg) rs Hrs Hnd Hroots x.
  - destruct cs; [ | cbn in Hlen; lia]. rewrite Hg. apply Z.divide_0_r.
  - destruct rs as [ | r rs]; [discriminate | ].
    cbn [map] in Hnd. inversion Hnd as [ | ? ? Hnotin Hnd']; subst.
    assert (Hq : forall y, (p | peval (pquot r cs) y)).
    { apply (IH (peval (pquot r cs))) with (rs := rs).
      - exists (pquot r cs). split; [rewrite length_pquot; lia | reflexivity].
      - cbn [length] in Hrs. lia.
      - exact Hnd'.
      - intros r' Hr'.
        pose proof (Hroots r' (or_intror Hr')) as H1.
        pose proof (Hroots r (or_introl eq_refl)) as H0.
        rewrite Hg in H0, H1. rewrite (pquot_spec r cs r') in H1.
        assert (H2 : (p | (r' - r) * peval (pquot r cs) r')).
        { replace ((r' - r) * peval (pquot r cs) r')
            with ((r' - r) * peval (pquot r cs) r' + peval cs r - peval cs r) by ring.
          apply Z.divide_sub_r; assumption. }
        apply Z.divide_prime_mul in H2; [ | exact Hp].
        destruct H2 as [H2 | H2]; [ | exact H2].
        exfalso. apply Hnotin.
        rewrite <- (divide_cong_mod p r' r ltac:(lia) H2).
        apply (in_map (fun r0 => r0 mod p)), Hr'. }
    rewrite Hg, (pquot_spec r cs x).
    apply Z.divide_add_r.
    + apply Z.divide_mul_r, Hq.
    + rewrite <- Hg. apply Hroots. left. reflexivity.
Qed.

(* ================================================================== *)
(** * Lagrange interpolation modulo a prime *)

Lemma is_poly_lagrange_term (m x : Z) (others : list Z) :
  is_poly (S (length others)) (fun X => lagrange_term m X x others).
Proof.
  induction others as [ | y others IH].
  - apply (is_poly_const 0 1).
  - apply is_poly_ext
      with (g := fun X => (y - X) * inverse (difference y x m) m
                          * lagrange_term m X x others).
    + intros X. rewrite lagrange_term_cons. reflexivity.
    + apply is_poly_mul_linear, IH.
Qed.

Lemma is_poly_weaken (k k' : nat) (g : Z -> Z) :
  (k <= k')%nat -> is_poly k g -> is_poly k' g.
Proof.
  intros Hk (cs & Hlen & Hg). exists cs. split; [lia | exact Hg].
Qed.

Lemma is_poly_lagrange_sum (m : Z) (l : list (Z * Z)) :
  forall pre,
    is_poly (length pre + length l) (fun X => lagrange_sum m X pre l).
Proof.
  induction l as [ | [x s] post IH]; intros pre; cbn [lagrange_sum].
  - apply is_poly_zero.
  - apply is_poly_add.
    + apply is_poly_scale.
      eapply is_poly_weaken; [ | apply is_poly_lagrange_term].
      rewrite length_map, length_app. cbn [length]. lia.
    + eapply is_poly_weaken; [ | apply (IH (pre ++ [(x, s)]))].
      rewrite length_app. cbn [length]. lia.
Qed.

(** At the point of another share the basis polynomial vanishes. *)
Lemma lagrange_term_other (m z x : Z) (others : list Z) :
  In z others -> lagrange_term m z x others = 0.
Proof.
  induction others as [ | y others IH]; intros Hin; [destruct Hin | ].
  rewrite lagrange_term_cons. destruct Hin as [-> | Hin].
  - unfold lagrange_factor. rewrite Z.sub_diag. ring.
  - rewrite IH by exact Hin. ring.
Qed.

Lemma lagrange_factor_own (p x y : Z) :
  Z.prime p -> ~ (p | y - x) -> cong p (lagrange_factor p x x y) 1.
Proof.
  intros Hp Hndiv. unfold lagrange_factor.
  pose proof (difference_cong y x p) as Hd.
  assert (Hg : Z.gcd (difference y x p) p = 1).
  { rewrite Z.gcd_comm. apply Z.coprime_prime_l; [exact Hp | ].
    intros Hdiv. apply Hndiv.
    apply cong_0_divide. eapply cong_trans; [apply cong_sym, Hd | ].
    apply cong_0_divide, Hdiv. }
  eapply cong_trans; [ | apply (inverse_spec _ _ Hg)].
  apply cong_mul; [apply cong_sym, Hd | apply cong_refl].
Qed.

(** At its own point the basis polynomial is 1 modulo the prime. *)
Lemma lagrange_term_own (p x : Z) (others : list Z) :
  Z.prime p ->
  (forall y, In y others -> ~ (p | y - x)) ->
  cong p (lagrange_term p x x others) 1.
Proof.
  intros Hp. induction others as [ | y others IH]; intros Hall.
  - apply cong_refl.
  - rewrite lagrange_term_cons. change 1 with (1 * 1).
    apply cong_mul.
    + apply lagrange_factor_own; [exact Hp | apply Hall; left; reflexivity].
    + apply IH. intros y' Hy'. apply Hall. right. exact Hy'.
Qed.

Lemma lagrange_sum_at_pre (m z : Z) (l : list (Z * Z)) :
  forall pre, In z (map fst pre) -> lagrange_sum m z pre l = 0.
Proof.
  induction l as [ | [x s] post IH]; intros pre Hin; cbn [lagrange_sum].
  - reflexivity.
  - rewrite lagrange_term_other, IH; [ring | | ].
    + rewrite map_app. apply in_or_app. left. exact Hin.
    + rewrite map_app. apply in_or_app. left. exact Hin.
Qed.

(** At the point of one of its shares the interpolation sum is that share,
    modulo the prime. *)
Lemma lagrange_sum_at (p z sz : Z) :
  Z.prime p ->
  forall (l pre : list (Z * Z)),
    NoDup (map (fun q => fst q mod p) (pre ++ l)) ->
    In (z, sz) l ->
    cong p (lagrange_sum p z pre l) sz.
Proof.
  intros Hp. pose proof (Z.prime_ge_2 p Hp) as Hp2.
  induction l as [ | [x s] post IH]; intros pre Hnd Hin; [destruct Hin | ].
  cbn [lagrange_sum]. destruct Hin as [E | Hin].
  - injection E as -> ->.
    rewrite lagrange_sum_at_pre
      by (rewrite map_app; apply in_or_app; right; left; reflexivity).
    rewrite Z.add_0_r.
    replace sz with (1 * sz) at 2 by ring.
    apply cong_mul; [ | apply cong_refl].
    apply lagrange_term_own; [exact Hp | ].
    intros y Hy Hdiv.
    rewrite map_app in Hnd. cbn [map fst] in Hnd.
    apply NoDup_remove_2 in Hnd. apply Hnd.
    rewrite <- map_app.
    rewrite <- (divide_cong_mod p y z ltac:(lia) Hdiv).
    apply in_map_iff in Hy. destruct Hy as (q & <- & Hq).
    apply (in_map (fun q0 => fst q0 mod p)), Hq.
  - rewrite lagrange_term_other.
    + rewrite Z.mul_0_l, Z.add_0_l. apply IH; [ | exact Hin].
      rewrite <- app_assoc. exact Hnd.
    + rewrite map_app. apply in_or_app. right.
      apply (in_map fst) in Hin. exact Hin.
Qed.

(** Interpolating [k] values of a polynomial of degree below [k], taken at
    points that are distinct modulo the prime [p], gives its value at 0. *)
Lemma lagrange_interpolation (p : Z) (f : Z -> Z) (pts : list (Z * Z)) :
  Z.prime p ->
  is_poly (length pts) f ->
  NoDup (map (fun q => fst q mod p) pts) ->
  (forall x s, In (x, s) pts -> cong p s (f x)) ->
  cong p (lagrange_sum p 0 [] pts) (f 0).
Proof.
  intros Hp Hf Hnd Hval.
  apply (poly_roots p Hp (length pts) (fun X => lagrange_sum p X [] pts - f X))
    with (rs := map fst pts).
  - apply is_poly_sub; [apply (is_poly_lagrange_sum p pts []) | exact Hf].
  - apply length_map.
  - rewrite map_map. exact Hnd.
  - intros r Hr. apply in_map_iff in Hr. destruct Hr as ([x s] & <- & Hin).
    cbn [fst]. eapply cong_trans; [ | apply (Hval x s Hin)].
    apply lagrange_sum_at; assumption.
Qed.

(* ================================================================== *)
(** * Splitting, then joining *)

Lemma point_small (i : Z) : 0 <= i < GoInt.max_int -> point i = i + 1.
Proof.
  unfold point, GoInt.add, GoInt.wrap_int, GoInt.max_int.
  assert (H63 : 2 ^ 63 = 9223372036854775808) by reflexivity.
  assert (H64 : 2 ^ 64 = 18446744073709551616) by reflexivity.
  rewrite H63, H64. intros Hi. rewrite Z.mod_small by lia. lia.
Qed.

Lemma mod_eq_divide (p a b : Z) : 0 < p -> a mod p = b mod p -> (p | a - b).
Proof.
  intros Hp H. exists (a / p - b / p).
  pose proof (Z.div_mod a p ltac:(lia)). pose proof (Z.div_mod b p ltac:(lia)).
  lia.
Qed.

Lemma combine_map_map {A B C : Type} (f : A -> B) (g : A -> C) (l : list A) :
  combine (map f l) (map g l) = map (fun i => (f i, g i)) l.
Proof.
  induction l as [ | a l IH]; cbn; [reflexivity | f_equal; exact IH].
Qed.

Lemma NoDup_map_transfer {A B C : Type} (f : A -> B) (g : A -> C) (l : list A) :
  (forall a b, In a l -> In b l -> g a = g b -> f a = f b) ->
  NoDup (map f l) -> NoDup (map g l).
Proof.
  induction l as [ | a l IH]; intros Hfg Hnd; cbn [map] in *; constructor.
  - inversion Hnd as [ | ? ? Hnotin _]; subst. intros Hin. apply Hnotin.
    apply in_map_iff in Hin. destruct Hin as (b & Hb & Hinb).
    rewrite <- (Hfg b a (or_intror Hinb) (or_introl eq_refl) Hb).
    apply in_map, Hinb.
  - inversion Hnd; subst. apply IH; [ | assumption].
    intros x y Hx Hy. apply Hfg; right; assumption.
Qed.

Section RoundTrip.

Context {St : Type} (next : St -> St * (io_error + byte)).

(** The shares of a successful [Split] with a prime modulus, joined: any [k]
    of them whose numbers are distinct modulo the modulus give the secret
    modulo the modulus. *)
Lemma Split_Join (fuel : nat) (s s' : St) (secret modulus k n : Z)
  (shares idx : list Z) :
  Z.prime modulus ->
  n <= GoInt.max_int ->
  Split next fuel s secret modulus k n = Some (s', Returns (shares, None)) ->
  length idx = Z.to_nat k ->
  (forall i, In i idx -> 0 <= i < n) ->
  NoDup (map (fun i => i mod modulus) idx) ->
  Join (map (fun i => nth (Z.to_nat i) shares 0) idx) idx modulus
  = Returns (Some (secret mod modulus), None).
Proof.
  intros Hp Hmax Hsplit Hlen Hidx Hnd.
  pose proof (Z.prime_ge_2 modulus Hp) as Hp2.
  apply Split_success in Hsplit.
  destruct Hsplit as (Hkn & Hs & Hm & rs & Hrs & _ & Hshares).
  set (a := secret :: map (fun r => r + 1) rs) in *.
  assert (Hla : length a = Z.to_nat k).
  { unfold a. cbn [length]. rewrite length_map, Hrs. lia. }
  rewrite Join_value.
  2: exact Hm.
  2: apply length_map.
  2: { apply Forall_forall. intros i Hi. apply Hidx in Hi. lia. }
  do 3 f_equal. rewrite Z.abs_eq by lia.
  apply divide_cong_mod; [lia | ].
  unfold points. rewrite combine_map_map.
  assert (H0 : polynomial a 0 = secret)
    by (rewrite polynomial_peval; unfold a; rewrite peval_cons; ring).
  rewrite <- H0.
  apply (lagrange_interpolation modulus (polynomial a)).
  - exact Hp.
  - rewrite length_map, Hlen, <- Hla. exists a. split; [lia | apply polynomial_peval].
  - rewrite map_map. cbn [fst].
    apply NoDup_map_transfer with (f := fun i => i mod modulus); [ | exact Hnd].
    intros i j Hi Hj E. apply Hidx in Hi. apply Hidx in Hj.
    rewrite !point_small in E by lia.
    apply divide_cong_mod; [lia | ].
    apply mod_eq_divide in E; [ | lia].
    replace (i - j) with (i + 1 - (j + 1)) by ring. exact E.
  - intros x v Hin. apply in_map_iff in Hin. destruct Hin as (i & E & Hi).
    injection E as <- <-. apply Hidx in Hi.
    rewrite point_small by lia. rewrite Hshares, nth_map_seq by lia.
    rewrite <- Hla, Split_sum_polynomial.
    replace (Z.of_nat (S (Z.to_nat i))) with (i + 1) by lia.
    apply cong_mod_abs.
Qed.

Lemma NoDup_mod_small (m n : Z) (idx : list Z) :
  n <= m ->
  (forall i, In i idx -> 0 <= i < n) ->
  NoDup idx -> NoDup (map (fun i => i mod m) idx).
Proof.
  intros Hn Hidx Hnd.
  rewrite (map_ext_in (fun i => i mod m) (fun i => i)).
  - rewrite map_id. exact Hnd.
  - intros i Hi. apply Hidx in Hi. apply Z.mod_small. lia.
Qed.

(** C1, amended.  Prime modulus, [0 <= secret < modulus], [1 <= k <= n] with
    [n] an [int], and [Split] successful: joining [k] of the shares, taken
    with their numbers, gives the secret, provided the numbers taken are
    distinct modulo the modulus.  They are for any [k] distinct numbers when
    [n <= modulus]. *)
Theorem Split_Join_roundtrip (fuel : nat) (s s' : St) (secret modulus k n : Z)
  (shares idx : list Z) :
  Z.prime modulus ->
  0 <= secret < modulus ->
  1 <= k <= n ->
  n <= GoInt.max_int ->
  Split next fuel s secret modulus k n = Some (s', Returns (shares, None)) ->
  length idx = Z.to_nat k ->
  (forall i, In i idx -> 0 <= i < n) ->
  (NoDup (map (fun i => i mod modulus) idx) ->
   Join (map (fun i => nth (Z.to_nat i) shares 0) idx) idx modulus
   = Returns (Some secret, None))
  /\ (n <= modulus -> NoDup idx ->
      Join (map (fun i => nth (Z.to_nat i) shares 0) idx) idx modulus
      = Returns (Some secret, None)).
Proof.
  intros Hp Hs Hkn Hmax Hsplit Hlen Hidx.
  assert (H : NoDup (map (fun i => i mod modulus) idx) ->
              Join (map (fun i => nth (Z.to_nat i) shares 0) idx) idx modulus
              = Returns (Some secret, None)).
  { intros Hnd.
    rewrite (Split_Join fuel s s' secret modulus k n shares idx) by assumption.
    rewrite Z.mod_small by exact Hs. reflexivity. }
  split; [exact H | ].
  intros Hn Hnd. apply H. eapply NoDup_mod_small; eassumption.
Qed.


End RoundTrip.

Lemma prime_7 : Z.prime 7.
Proof.
  split; [lia | ]. intros n Hn [q Hq].
  assert (Hcases : n = 2 \/ n = 3 \/ n = 4 \/ n = 5 \/ n = 6) by lia.
  destruct Hcases as [-> | [-> | [-> | [-> | ->]]]]; lia.
Qed.

(** C1, as stated, fails: with the prime modulus 2, the secret 1, [k = 2] and
    [n = 3], [Split] succeeds and returns three shares, and the shares
    numbered 0 and 2 (points 1 and 3, equal modulo 2) join to 0. *)
Lemma Split_Join_counterexample :
  Z.prime 2 /\ 0 <= 1 < 2 /\ 1 <= 2 <= 3 /\
  Split buffer_next 1 [x00] 1 2 2 3 = Some ([], Returns ([0; 1; 0], None)) /\
  Join (map (fun i => nth (Z.to_nat i) [0; 1; 0] 0) [0; 2]) [0; 2] 2
  = Returns (Some 0, None) /\
  Join (map (fun i => nth (Z.to_nat i) [0; 1; 0] 0) [0; 2]) [0; 2] 2
  <> Returns (Some 1, None).
Proof.
  split; [exact Z.prime_2 | ].
  split; [lia | split; [lia | ]].
  split; [reflexivity | split; [reflexivity | ]].
  intros H. vm_compute in H. discriminate.
Qed.

Lemma Split_Join_roundtrip_witness :
  Split buffer_next 1 [xc8; x03; x07] 3 7 3 5
  = Some ([x07], Returns ([1; 0; 0; 1; 3], None))
  /\ Join (map (fun i => nth (Z.to_nat i) [1; 0; 0; 1; 3] 0) [4; 0; 2]) [4; 0; 2] 7
     = Returns (Some 3, None).
Proof.
  split; [reflexivity | ].
  apply (Split_Join_roundtrip buffer_next 1 [xc8; x03; x07] [x07] 3 7 3 5).
  - exact prime_7.
  - lia.
  - lia.
  - unfold GoInt.max_int. lia.
  - reflexivity.
  - reflexivity.
  - cbn [In]. intros i Hi. lia.
  - lia.
  - repeat constructor; cbn [In]; lia.
Defined.




(* ================================================================== *)
(** * Split succeeds on a reader of zero bytes *)

Lemma ReadFull_zero_reader (n : nat) :
  forall got,
    ReadFull_from unit zero_reader n tt got = (tt, inr (rev got ++ repeat x00 n)).
Proof.
  induction n as [ | n IH]; intros got; cbn [ReadFull_from repeat].
  - rewrite app_nil_r. reflexivity.
  - unfold zero_reader at 1. rewrite IH. cbn [rev].
    rewrite <- app_assoc. reflexivity.
Qed.

Lemma SetBytes_zeros (n : nat) : Big.SetBytes (repeat x00 n) = 0.
Proof.
  unfold Big.SetBytes. induction n as [ | n IH]; [reflexivity | exact IH].
Qed.

Lemma sample_bytes_positive (max : Z) : 1 <= max -> (0 < sample_bytes max)%nat.
Proof.
  intros Hmax. unfold sample_bytes, Big.BitLen.
  assert ((max =? 0) = false) as -> by (apply Z.eqb_neq; lia).
  pose proof (Z.log2_nonneg (Z.abs max)).
  assert (1 <= (Z.log2 (Z.abs max) + 1 + 7) / 8)
    by (apply Z.div_le_lower_bound; lia).
  lia.
Qed.

Lemma randomNumber_zero_reader (fuel : nat) (max : Z) :
  1 <= max ->
  randomNumber zero_reader (S fuel) tt max = Some (tt, Returns (0, None)).
Proof.
  intros Hmax. unfold randomNumber. fold (sample_bytes max).
  pose proof (sample_bytes_positive max Hmax) as Hk.
  destruct (sample_bytes max) as [ | k]; [lia | ].
  cbn [randomNumber_loop]. unfold ReadFull.
  rewrite ReadFull_zero_reader. cbn [rev app repeat].
  change (byte_and x00 ?m) with x00.
  change (x00 :: repeat x00 k) with (repeat x00 (S k)).
  rewrite SetBytes_zeros, BigFacts.Cmp_lt.
  assert ((0 <? max) = true) as -> by (apply Z.ltb_lt; lia).
  reflexivity.
Qed.

Lemma Split_coefficients_zero_reader (fuel : nat) (mm1 : Z) :
  1 <= mm1 ->
  forall (count : nat) (a : list Z),
    Split_coefficients zero_reader (S fuel) tt mm1 count a
    = Some (tt, Returns (a ++ repeat 1 count, None)).
Proof.
  intros Hmm1. induction count as [ | count IH]; intros a;
    cbn [Split_coefficients repeat].
  - rewrite app_nil_r. reflexivity.
  - rewrite randomNumber_zero_reader by exact Hmm1.
    rewrite IH, <- app_assoc. reflexivity.
Qed.

(** For every modulus from 2 on and all parameters that pass the checks
    there is a reader on which [Split] succeeds. *)
Lemma Split_zero_reader (fuel : nat) (secret modulus k n : Z) :
  2 <= modulus -> secret < modulus -> 1 <= k <= n ->
  exists shares,
    Split zero_reader (S fuel) tt secret modulus k n
    = Some (tt, Returns (shares, None)).
Proof.
  intros Hm Hs Hkn. unfold Split.
  assert ((k <? 1) = false) as -> by (apply Z.ltb_ge; lia).
  assert ((n <? k) = false) as -> by (apply Z.ltb_ge; lia).
  rewrite BigFacts.Cmp_ge.
  assert ((modulus <=? secret) = false) as -> by (apply Z.leb_gt; lia).
  cbn [orb]. rewrite Split_coefficients_zero_reader by lia.
  rewrite Split_shares_value by lia. cbn [bind].
  eexists. reflexivity.
Qed.

(* ================================================================== *)
(** * Split: failures, necessary conditions, threshold one *)

Section SplitOutcomes.

Context {St : Type} (next : St -> St * (io_error + byte)).

Lemma randomNumber_error_read (fuel : nat) (s : St) (max : Z) (s' : St) (n : Z)
  (e : error) :
  randomNumber next fuel s max = Some (s', Returns (n, Some e)) ->
  exists s0 e',
    e = ErrRandomSource e' /\ ReadFull next s0 (sample_bytes max) = (s', inl e').
Proof. unfold randomNumber. apply randomNumber_loop_error. Qed.

Lemma Split_coefficients_failure (fuel : nat) (mm1 : Z) :
  forall (count : nat) (s : St) (a : list Z) s' a' e,
    Split_coefficients next fuel s mm1 count a = Some (s', Returns (a', Some e)) ->
    (0 < count)%nat /\
    exists s0 e',
      e = ErrRandomSource e' /\ ReadFull next s0 (sample_bytes mm1) = (s', inl e').
Proof.
  induction count as [ | count IH]; intros s a s' a' e H;
    cbn [Split_coefficients] in H.
  - discriminate.
  - split; [lia | ].
    destruct (randomNumber next fuel s mm1) as [[s1 [[ai [e1 | ]] | p]] | ] eqn:Hr;
      try discriminate.
    + injection H as <- _ <-. eapply randomNumber_error_read, Hr.
    + apply IH in H. apply H.
Qed.

(** X1.  An error of [Split] never comes with shares, and it is one of
    three: the parameter error and the error for the secret, both with the
    reader untouched, or, with [k >= 2], the error of a failed [ReadFull] for
    a coefficient, unchanged and with the reader as that read left it. *)
Theorem Split_error_outcomes (fuel : nat) (s s' : St) (secret modulus k n : Z)
  (shares : list Z) (e : error) :
  Split next fuel s secret modulus k n = Some (s', Returns (shares, Some e)) ->
  shares = []
  /\ ((e = ErrInvalidParameters /\ s' = s /\ (k < 1 \/ n < k))
      \/ (e = ErrSecretTooLarge /\ s' = s /\ 1 <= k <= n /\ modulus <= secret)
      \/ (2 <= k <= n /\ secret < modulus /\
          exists s0 e',
            e = ErrRandomSource e'
            /\ ReadFull next s0 (sample_bytes (modulus - 1)) = (s', inl e'))).
Proof.
  unfold Split. rewrite BigFacts.Cmp_ge. intros H.
  destruct (Z.ltb_spec k 1) as [Hk | Hk]; cbn [orb] in H.
  { injection H as <- <- <-. split; [reflexivity | ]. left. auto. }
  destruct (Z.ltb_spec n k) as [Hn | Hn].
  { injection H as <- <- <-. split; [reflexivity | ]. left. auto. }
  destruct (Z.leb_spec modulus secret) as [Hs | Hs].
  { injection H as <- <- <-. split; [reflexivity | ]. right. left.
    repeat split; assumption. }
  destruct (Split_coefficients next fuel s (modulus - 1) (Z.to_nat (k - 1)) [secret])
    as [[s1 [[a [e1 | ]] | p]] | ] eqn:Hc; try discriminate.
  - injection H as <- <- <-. split; [reflexivity | ]. right. right.
    apply Split_coefficients_failure in Hc. destruct Hc as [Hcount Hread].
    split; [lia | split; [exact Hs | exact Hread]].
  - destruct (Split_shares a (Z.to_nat k) modulus (seq 1 (Z.to_nat n)));
      discriminate.
Qed.

(** X2.  What must have held when [Split] has come back with shares: the
    parameters and the secret pass the checks, the modulus is not 0, it is
    at least 2 when a coefficient had to be drawn, and there are [n]
    shares, each in [0, |modulus|). *)
Theorem Split_success_conditions (fuel : nat) (s s' : St) (secret modulus k n : Z)
  (shares : list Z) :
  Split next fuel s secret modulus k n = Some (s', Returns (shares, None)) ->
  1 <= k <= n
  /\ secret < modulus
  /\ modulus <> 0
  /\ (2 <= k -> 2 <= modulus)
  /\ Z.of_nat (length shares) = n
  /\ Forall (fun v => 0 <= v < Z.abs modulus) shares.
Proof.
  intros H. apply Split_success in H.
  destruct H as (Hkn & Hs & Hm & rs & Hlen & Hsam & ->).
  split; [exact Hkn | split; [exact Hs | split; [exact Hm | split; [ | split]]]].
  - intros Hk. apply samples_range in Hsam.
    destruct rs as [ | r rs]; [cbn [length] in Hlen; lia | ].
    inversion Hsam; subst. lia.
  - rewrite length_map, length_seq. lia.
  - apply Forall_map, Forall_forall. intros i _.
    apply Z.mod_pos_bound. lia.
Qed.

Lemma Split_sum_one (secret bigI : Z) : Split_sum [secret] 1 bigI = secret.
Proof.
  unfold Split_sum. cbn [seq fold_left nth Z.of_nat].
  change (Big.Exp bigI 0) with 1. lia.
Qed.

Lemma map_const_seq {A : Type} (c : A) (start len : nat) :
  map (fun _ => c) (seq start len) = repeat c len.
Proof.
  revert start. induction len as [ | len IH]; intros start; cbn [seq map repeat].
  - reflexivity.
  - rewrite IH. reflexivity.
Qed.

(** X3.  With [k = 1] [Split] draws nothing: whatever the fuel and the
    reader, it leaves the reader as it is and returns [n] copies of the
    secret reduced modulo the modulus; with the modulus 0 it panics. *)
Theorem Split_threshold_one (fuel : nat) (s : St) (secret modulus n : Z) :
  1 <= n ->
  secret < modulus ->
  (modulus <> 0 ->
   Split next fuel s secret modulus 1 n
   = Some (s, Returns (repeat (secret mod Z.abs modulus) (Z.to_nat n), None)))
  /\ (modulus = 0 ->
      Split next fuel s secret modulus 1 n = Some (s, Panics DivisionByZero)).
Proof.
  intros Hn Hs. unfold Split.
  assert ((n <? 1) = false) as -> by (apply Z.ltb_ge; lia).
  rewrite BigFacts.Cmp_ge.
  assert ((modulus <=? secret) = false) as -> by (apply Z.leb_gt; lia).
  change (1 <? 1) with false. change (Z.to_nat (1 - 1)) with 0%nat.
  change (Z.to_nat 1) with 1%nat. cbn [orb Split_coefficients].
  split.
  - intros Hm. rewrite Split_shares_value by exact Hm. cbn [bind].
    rewrite <- (map_const_seq (secret mod Z.abs modulus) 1 (Z.to_nat n)).
    do 4 f_equal. apply map_ext. intros i.
    rewrite Split_sum_one. reflexivity.
  - intros ->. replace (Z.to_nat n) with (S (Z.to_nat (n - 1))) by lia.
    reflexivity.
Qed.

(** X4.  The shares do not depend on how many are asked for: when [Split]
    has succeeded for [n] shares, it succeeds for every [n' >= n] from the
    same reader state, ends in the same state, and its first [n] shares are
    the shares returned for [n]. *)
Theorem Split_more_shares (fuel : nat) (s s' : St) (secret modulus k n n' : Z)
  (shares : list Z) :
  Split next fuel s secret modulus k n = Some (s', Returns (shares, None)) ->
  n <= n' ->
  exists shares',
    Split next fuel s secret modulus k n' = Some (s', Returns (shares', None))
    /\ firstn (Z.to_nat n) shares' = shares.
Proof.
  intros H Hn'.
  pose proof (Split_success next _ _ _ _ _ _ _ _ H) as (Hkn & Hs & Hm & _).
  unfold Split in *. rewrite BigFacts.Cmp_ge in *.
  assert ((k <? 1) = false) as Ek by (apply Z.ltb_ge; lia).
  assert ((n <? k) = false) as En by (apply Z.ltb_ge; lia).
  assert ((n' <? k) = false) as En' by (apply Z.ltb_ge; lia).
  assert ((modulus <=? secret) = false) as Es by (apply Z.leb_gt; lia).
  rewrite Ek, En, Es in H. rewrite Ek, En', Es. cbn [orb] in *.
  destruct (Split_coefficients next fuel s (modulus - 1) (Z.to_nat (k - 1)) [secret])
    as [[s1 [[a [e1 | ]] | p]] | ]; try discriminate.
  rewrite Split_shares_value in * by exact Hm. cbn [bind] in *.
  injection H as <- <-.
  eexists. split; [reflexivity | ].
  rewrite firstn_map. f_equal.
  replace (Z.to_nat n') with (Z.to_nat n + (Z.to_nat n' - Z.to_nat n))%nat by lia.
  rewrite seq_app, firstn_app, length_seq, Nat.sub_diag, firstn_O, app_nil_r.
  apply firstn_all2. rewrite length_seq. lia.
Qed.

End SplitOutcomes.

Lemma Split_error_outcomes_witness :
  Split buffer_next 1 [] 3 7 2 3 = Some ([], Returns ([], Some (ErrRandomSource EOF)))
  /\ ([] : list Z) = [].
Proof.
  split; [reflexivity | ].
  exact (proj1 (Split_error_outcomes buffer_next 1 [] [] 3 7 2 3 []
                  (ErrRandomSource EOF) eq_refl)).
Defined.

Lemma Split_success_conditions_witness :
  1 <= 3 <= 5 /\ 3 < 7 /\ Z.of_nat (length [1; 0; 0; 1; 3]) = 5.
Proof.
  destruct (Split_success_conditions buffer_next 1 [xc8; x03; x07] [x07] 3 7 3 5
              [1; 0; 0; 1; 3] eq_refl) as (H1 & H2 & _ & _ & H5 & _).
  split; [exact H1 | split; [exact H2 | exact H5]].
Defined.

Lemma Split_threshold_one_witness :
  Split buffer_next 0 [x09] (-3) 5 1 3 = Some ([x09], Returns ([2; 2; 2], None)).
Proof.
  apply (proj1 (Split_threshold_one buffer_next 0 [x09] (-3) 5 3 ltac:(lia) ltac:(lia))).
  discriminate.
Defined.

Lemma Split_more_shares_witness :
  exists shares',
    Split buffer_next 1 [xc8; x03; x07] 3 7 3 5 = Some ([x07], Returns (shares', None))
    /\ firstn (Z.to_nat 3) shares' = [1; 0; 0].
Proof.
  apply (Split_more_shares buffer_next 1 [xc8; x03; x07] [x07] 3 7 3 3 5 [1; 0; 0]).
  - reflexivity.
  - lia.
Defined.

(* ================================================================== *)
(** * Join: what it returns, and how it depends on the shares *)

Lemma Join_outer_secret (shares nums : list Z) (m : Z) :
  forall (todo : list nat) (acc v : Z) (e : option error),
    Join_outer shares nums m todo acc = Returns (Some v, e) ->
    m <> 0 /\ 0 <= v < Z.abs m /\ e = None
    /\ forall i, In i todo -> 0 <= nth i nums 0.
Proof.
  induction todo as [ | i todo IH]; intros acc v e H; cbn [Join_outer] in H.
  - unfold Big.Mod in H. destruct (Z.eqb_spec m 0) as [E | N]; [discriminate | ].
    cbn [bind] in H. injection H as <- <-.
    split; [exact N | split; [apply Z.mod_pos_bound; lia | split; [reflexivity | ]]].
    intros i [].
  - destruct (Z.ltb_spec (nth i nums 0) 0) as [L | G]; [discriminate | ].
    destruct (Join_inner nums m i (seq 0 (length shares)) 1) as [c | p];
      cbn [bind] in H; [ | discriminate].
    destruct (IH _ _ _ H) as (Hm & Hv & He & Hall).
    split; [exact Hm | split; [exact Hv | split; [exact He | ]]].
    intros j [<- | Hj]; [exact G | apply Hall, Hj].
Qed.

(** X5.  When [Join] returns a secret, the error is nil, the two sequences
    have the same length, no share number is negative, the modulus is not
    0 and the secret lies in [0, |modulus|). *)
Theorem Join_secret_conditions (shares shareNumbers : list Z) (modulus v : Z)
  (e : option error) :
  Join shares shareNumbers modulus = Returns (Some v, e) ->
  e = None
  /\ length shares = length shareNumbers
  /\ Forall (fun n => 0 <= n) shareNumbers
  /\ modulus <> 0
  /\ 0 <= v < Z.abs modulus.
Proof.
  unfold Join. intros H.
  destruct (Nat.eqb_spec (length shares) (length shareNumbers)) as [E | N];
    cbn [negb] in H; [ | discriminate].
  apply Join_outer_secret in H. destruct H as (Hm & Hv & He & Hall).
  split; [exact He | split; [exact E | split; [ | split; assumption]]].
  apply Forall_forall. intros n Hn.
  destruct (In_nth shareNumbers n 0 Hn) as (i & Hi & <-).
  apply Hall, in_seq. lia.
Qed.

Lemma Join_secret_conditions_witness :
  length [1; 1] = length [0; 2] /\ 0 <= 0 < Z.abs 4.
Proof.
  destruct (Join_secret_conditions [1; 1] [0; 2] 4 0 None eq_refl)
    as (_ & H2 & _ & _ & H5).
  split; [exact H2 | exact H5].
Defined.

Lemma inverse_zero (m : Z) : inverse 0 m = 0.
Proof. reflexivity. Qed.

Lemma difference_same (x m : Z) : difference x x m = 0.
Proof. unfold difference. rewrite Z.sub_diag. reflexivity. Qed.

Lemma Join_step_same (nums : list Z) (m : Z) (i j : nat) (c : Z) :
  m <> 0 -> nth j nums 0 = nth i nums 0 -> Join_step nums m i j c = Returns 0.
Proof.
  intros Hm E. unfold Join_step. rewrite E, difference_same, inverse_zero.
  rewrite BigFacts.Mod_nonzero by exact Hm.
  rewrite Z.mul_0_r. reflexivity.
Qed.

Lemma Join_inner_from_zero (nums : list Z) (m : Z) (i : nat) :
  m <> 0 -> forall js, Join_inner nums m i js 0 = Returns 0.
Proof.
  intros Hm. induction js as [ | j js IH]; cbn [Join_inner]; [reflexivity | ].
  destruct (Nat.eqb i j); [exact IH | ].
  rewrite Join_step_value by exact Hm. rewrite Z.mul_0_l. cbn [bind].
  rewrite Z.mod_0_l by lia. exact IH.
Qed.

(** The weight of a share whose number occurs at another position is 0. *)
Lemma Join_inner_repeated (nums : list Z) (m : Z) (i j : nat) :
  m <> 0 -> j <> i -> nth j nums 0 = nth i nums 0 ->
  forall js c, In j js -> Join_inner nums m i js c = Returns 0.
Proof.
  intros Hm Hji E. induction js as [ | h js IH]; intros c Hin; [destruct Hin | ].
  cbn [Join_inner]. destruct (Nat.eqb_spec i h) as [-> | Hih].
  - destruct Hin as [-> | Hin]; [contradiction | apply IH, Hin].
  - destruct (Nat.eq_dec h j) as [-> | Hhj].
    + rewrite Join_step_same by assumption. cbn [bind].
      apply Join_inner_from_zero, Hm.
    + rewrite Join_step_value by exact Hm. cbn [bind].
      apply IH. destruct Hin as [-> | Hin]; [contradiction | exact Hin].
Qed.

Lemma Join_outer_repeated (shares nums : list Z) (m : Z) :
  m <> 0 ->
  forall (todo : list nat) (acc : Z),
    (forall i, In i todo ->
               0 <= nth i nums 0 /\
               exists j, (j < length shares)%nat /\ j <> i
                         /\ nth j nums 0 = nth i nums 0) ->
    Join_outer shares nums m todo acc = Returns (Some (acc mod Z.abs m), None).
Proof.
  intros Hm. induction todo as [ | i todo IH]; intros acc Hall; cbn [Join_outer].
  - rewrite BigFacts.Mod_nonzero by exact Hm. reflexivity.
  - destruct (Hall i (or_introl eq_refl)) as (Hi & j & Hj & Hji & E).
    assert ((nth i nums 0 <? 0) = false) as -> by (apply Z.ltb_ge; exact Hi).
    rewrite (Join_inner_repeated nums m i j Hm Hji E)
      by (apply in_seq; lia).
    cbn [bind]. rewrite Z.mul_0_l, Z.add_0_r.
    apply IH. intros i' Hi'. apply Hall. right. exact Hi'.
Qed.

(** X7.  [Join] does not notice repeated share numbers: when every share
    number of a valid input occurs at a second position as well, all weights
    are 0 and [Join] returns 0 with a nil error, whatever the shares are. *)
Theorem Join_repeated_numbers (shares shareNumbers : list Z) (modulus : Z) :
  modulus <> 0 ->
  length shares = length shareNumbers ->
  Forall (fun n => 0 <= n) shareNumbers ->
  (forall i, (i < length shareNumbers)%nat ->
             exists j, (j < length shareNumbers)%nat /\ j <> i
                       /\ nth j shareNumbers 0 = nth i shareNumbers 0) ->
  Join shares shareNumbers modulus = Returns (Some 0, None).
Proof.
  intros Hm Hlen Hpos Hrep. unfold Join.
  rewrite Hlen, Nat.eqb_refl. cbn [negb].
  rewrite <- Hlen. rewrite Join_outer_repeated; [reflexivity | exact Hm | ].
  intros i Hi. apply in_seq in Hi. split.
  - rewrite Forall_forall in Hpos. apply Hpos, nth_In. lia.
  - rewrite Hlen. apply Hrep. lia.
Qed.

Lemma Join_repeated_numbers_witness :
  Join [5; 6] [3; 3] 7 = Returns (Some 0, None).
Proof.
  apply Join_repeated_numbers.
  - discriminate.
  - reflexivity.
  - repeat constructor; lia.
  - intros i Hi. cbn [length] in Hi.
    destruct i as [ | [ | i]]; [exists 1%nat | exists 0%nat | lia];
      cbn [length nth]; repeat split; lia.
Defined.

Lemma dot_cons (w s : Z) (ws ss : list Z) :
  dot (w :: ws) (s :: ss) = w * s + dot ws ss.
Proof. reflexivity. Qed.

Lemma lagrange_sum_dot (m X : Z) (xs : list Z) :
  forall (ss : list Z) (pre : list (Z * Z)),
    length xs = length ss ->
    lagrange_sum m X pre (combine xs ss) = dot (weights m X (map fst pre) xs) ss.
Proof.
  induction xs as [ | x xs IH]; intros [ | s ss] pre Hlen; try discriminate.
  - reflexivity.
  - cbn [combine lagrange_sum weights]. rewrite dot_cons.
    rewrite map_app, map_fst_combine by (cbn [length] in Hlen; lia).
    rewrite IH by (cbn [length] in Hlen; lia).
    rewrite map_app. reflexivity.
Qed.

(** With a non-zero modulus and valid arguments, [Join] returns the sum of
    the shares, each weighted by a number that the share numbers and the
    modulus determine. *)
Lemma Join_weighted_sum (shares nums : list Z) (m : Z) :
  m <> 0 ->
  length shares = length nums ->
  Forall (fun n => 0 <= n) nums ->
  Join shares nums m
  = Returns (Some (dot (weights m 0 [] (map point nums)) shares mod Z.abs m), None).
Proof.
  intros Hm Hlen Hpos. rewrite Join_value by assumption.
  unfold points. rewrite lagrange_sum_dot by (rewrite length_map; lia).
  reflexivity.
Qed.

Lemma dot_linear (alpha beta : Z) :
  forall ws a b,
    length a = length ws -> length b = length ws ->
    dot ws (map (fun p => alpha * fst p + beta * snd p) (combine a b))
    = alpha * dot ws a + beta * dot ws b.
Proof.
  induction ws as [ | w ws IH]; intros [ | x a] [ | y b] Ha Hb; try discriminate.
  - cbn. lia.
  - cbn [combine map fst snd]. rewrite !dot_cons.
    rewrite IH by (cbn [length] in *; lia). ring.
Qed.

Lemma dot_cong (m : Z) :
  forall ws a b,
    Forall2 (cong m) a b -> cong m (dot ws a) (dot ws b).
Proof.
  induction ws as [ | w ws IH]; intros a b H.
  - apply cong_refl.
  - destruct H as [ | x y a b Hxy H]; [apply cong_refl | ].
    rewrite !dot_cons. apply cong_add; [ | apply IH, H].
    apply cong_mul; [apply cong_refl | exact Hxy].
Qed.

Lemma length_weights (m X : Z) (xs : list Z) :
  forall pre, length (weights m X pre xs) = length xs.
Proof.
  induction xs as [ | x xs IH]; intros pre; cbn [weights length];
    [reflexivity | rewrite IH; reflexivity].
Qed.

(** X8.  [Join] is linear in the shares: for one and the same valid sequence
    of share numbers and a non-zero modulus, joining the shares
    [alpha * a_i + beta * b_i] gives [alpha * va + beta * vb] reduced, where
    [va] and [vb] are what the shares [a] and [b] join to. *)
Theorem Join_linear (a b shareNumbers : list Z) (modulus alpha beta va vb : Z) :
  modulus <> 0 ->
  length a = length shareNumbers ->
  length b = length shareNumbers ->
  Forall (fun n => 0 <= n) shareNumbers ->
  Join a shareNumbers modulus = Returns (Some va, None) ->
  Join b shareNumbers modulus = Returns (Some vb, None) ->
  Join (map (fun p => alpha * fst p + beta * snd p) (combine a b))
    shareNumbers modulus
  = Returns (Some ((alpha * va + beta * vb) mod Z.abs modulus), None).
Proof.
  intros Hm Ha Hb Hpos Hva Hvb.
  rewrite Join_weighted_sum in Hva, Hvb by assumption.
  injection Hva as <-. injection Hvb as <-.
  rewrite Join_weighted_sum; try assumption.
  2: { rewrite length_map, length_combine. lia. }
  rewrite dot_linear by (rewrite length_weights, length_map; assumption).
  do 3 f_equal. apply cong_mod_eq.
  apply cong_add; (apply cong_mul; [apply cong_refl | ]);
    apply cong_sym, cong_mod_abs.
Qed.

Lemma Join_linear_witness :
  Join (map (fun p => 2 * fst p + 3 * snd p) (combine [1; 0; 0] [5; 6; 0]))
    [0; 1; 2] 7
  = Returns (Some ((2 * 3 + 3 * 4) mod Z.abs 7), None).
Proof.
  apply Join_linear.
  - discriminate.
  - reflexivity.
  - reflexivity.
  - repeat constructor; lia.
  - reflexivity.
  - reflexivity.
Defined.

(** X9.  [Join] uses the shares modulo the modulus only: two sequences of
    shares that are congruent entry by entry join, with the same valid share
    numbers, to the same result. *)
Theorem Join_congruent_shares (a b shareNumbers : list Z) (modulus : Z) :
  length a = length shareNumbers ->
  Forall (fun n => 0 <= n) shareNumbers ->
  Forall2 (cong modulus) a b ->
  Join a shareNumbers modulus = Join b shareNumbers modulus.
Proof.
  intros Ha Hpos Hab.
  assert (Hb : length b = length shareNumbers)
    by (rewrite <- Ha; symmetry; eapply Forall2_length, Hab).
  destruct (Z.eq_dec modulus 0) as [-> | Hm].
  - rewrite !Join_zero_modulus by assumption. reflexivity.
  - rewrite !Join_weighted_sum by assumption.
    do 3 f_equal. apply cong_mod_eq, dot_cong, Hab.
Qed.

Lemma Join_congruent_shares_witness :
  Join [1; 0; 0] [0; 1; 2] 7 = Join [8; -7; 14] [0; 1; 2] 7.
Proof.
  apply Join_congruent_shares.
  - reflexivity.
  - repeat constructor; lia.
  - repeat constructor; [exists (-1) | exists 1 | exists (-2)]; reflexivity.
Defined.

(* ================================================================== *)
(** * Splitting, then joining: more shares, windows, threshold one *)

Lemma slice_nth {A : Type} (d : A) :
  forall (l : list A) (lo len : nat),
    (lo + len <= length l)%nat ->
    firstn len (skipn lo l) = map (fun j => nth j l d) (seq lo len).
Proof.
  induction l as [ | a l IH]; intros lo len Hlen.
  - cbn [length] in Hlen. assert (lo = 0 /\ len = 0)%nat as [-> ->] by lia.
    reflexivity.
  - destruct lo as [ | lo].
    + destruct len as [ | len]; [reflexivity | ].
      cbn [skipn firstn seq map nth]. f_equal.
      rewrite <- seq_shift, map_map. cbn [nth].
      apply (IH 0%nat len). cbn [length] in Hlen. lia.
    + cbn [skipn]. rewrite <- seq_shift, map_map. cbn [nth].
      apply IH. cbn [length] in Hlen. lia.
Qed.

Lemma NoDup_map_of_nat (l : list nat) : NoDup l -> NoDup (map Z.of_nat l).
Proof.
  induction 1 as [ | a l Hnotin _ IH]; cbn [map]; constructor; [ | exact IH].
  intros Hin. apply in_map_iff in Hin. destruct Hin as (b & Hb & Hin).
  apply Nat2Z.inj in Hb. subst b. contradiction.
Qed.

Section MoreShares.

Context {St : Type} (next : St -> St * (io_error + byte)).

(** As [Split_Join], for [k] shares or more. *)
Lemma Split_Join_at_least (fuel : nat) (s s' : St) (secret modulus k n : Z)
  (shares idx : list Z) :
  Z.prime modulus ->
  n <= GoInt.max_int ->
  Split next fuel s secret modulus k n = Some (s', Returns (shares, None)) ->
  (Z.to_nat k <= length idx)%nat ->
  (forall i, In i idx -> 0 <= i < n) ->
  NoDup (map (fun i => i mod modulus) idx) ->
  Join (map (fun i => nth (Z.to_nat i) shares 0) idx) idx modulus
  = Returns (Some (secret mod modulus), None).
Proof.
  intros Hp Hmax Hsplit Hlen Hidx Hnd.
  pose proof (Z.prime_ge_2 modulus Hp) as Hp2.
  apply Split_success in Hsplit.
  destruct Hsplit as (Hkn & Hs & Hm & rs & Hrs & _ & Hshares).
  set (a := secret :: map (fun r => r + 1) rs) in *.
  assert (Hla : length a = Z.to_nat k).
  { unfold a. cbn [length]. rewrite length_map, Hrs. lia. }
  rewrite Join_value.
  2: exact Hm.
  2: apply length_map.
  2: { apply Forall_forall. intros i Hi. apply Hidx in Hi. lia. }
  do 3 f_equal. rewrite Z.abs_eq by lia.
  apply divide_cong_mod; [lia | ].
  unfold points. rewrite combine_map_map.
  assert (H0 : polynomial a 0 = secret)
    by (rewrite polynomial_peval; unfold a; rewrite peval_cons; ring).
  rewrite <- H0.
  apply (lagrange_interpolation modulus (polynomial a)).
  - exact Hp.
  - rewrite length_map. apply is_poly_weaken with (k := length a); [lia | ].
    exists a. split; [lia | apply polynomial_peval].
  - rewrite map_map. cbn [fst].
    apply NoDup_map_transfer with (f := fun i => i mod modulus); [ | exact Hnd].
    intros i j Hi Hj E. apply Hidx in Hi. apply Hidx in Hj.
    rewrite !point_small in E by lia.
    apply divide_cong_mod; [lia | ].
    apply mod_eq_divide in E; [ | lia].
    replace (i - j) with (i + 1 - (j + 1)) by ring. exact E.
  - intros x v Hin. apply in_map_iff in Hin. destruct Hin as (i & E & Hi).
    injection E as <- <-. apply Hidx in Hi.
    rewrite point_small by lia. rewrite Hshares, nth_map_seq by lia.
    rewrite <- Hla, Split_sum_polynomial.
    replace (Z.of_nat (S (Z.to_nat i))) with (i + 1) by lia.
    apply cong_mod_abs.
Qed.

(** X10.  More than [k] shares do as well as [k]: for a prime modulus, a
    secret in [0, modulus) and a successful [Split] of [n <= modulus] shares,
    [n] an [int], joining any [k] or more distinct shares with their numbers
    returns the secret; joining all [n] of them does. *)
Theorem Split_Join_at_least_k (fuel : nat) (s s' : St) (secret modulus k n : Z)
  (shares idx : list Z) :
  Z.prime modulus ->
  0 <= secret < modulus ->
  n <= modulus ->
  n <= GoInt.max_int ->
  Split next fuel s secret modulus k n = Some (s', Returns (shares, None)) ->
  ((Z.to_nat k <= length idx)%nat ->
   (forall i, In i idx -> 0 <= i < n) ->
   NoDup idx ->
   Join (map (fun i => nth (Z.to_nat i) shares 0) idx) idx modulus
   = Returns (Some secret, None))
  /\ Join shares (shareNumbers_upto (Z.to_nat n)) modulus
     = Returns (Some secret, None).
Proof.
  intros Hp Hs Hn Hmax Hsplit.
  assert (Hgen : (Z.to_nat k <= length idx)%nat ->
                 (forall i, In i idx -> 0 <= i < n) ->
                 NoDup idx ->
                 Join (map (fun i => nth (Z.to_nat i) shares 0) idx) idx modulus
                 = Returns (Some secret, None)).
  { intros Hlen Hidx Hnd.
    rewrite (Split_Join_at_least fuel s s' secret modulus k n shares idx);
      try assumption.
    - rewrite Z.mod_small by exact Hs. reflexivity.
    - eapply NoDup_mod_small; eassumption. }
  split; [exact Hgen | ].
  pose proof (Split_success next _ _ _ _ _ _ _ _ Hsplit)
    as (Hkn & _ & _ & rs & _ & _ & Hshares).
  assert (Hlen : length shares = Z.to_nat n)
    by (rewrite Hshares, length_map, length_seq; reflexivity).
  assert (Hall : map (fun i => nth (Z.to_nat i) shares 0)
                   (shareNumbers_upto (Z.to_nat n)) = shares).
  { unfold shareNumbers_upto. rewrite map_map.
    rewrite (map_ext _ (fun j => nth j shares 0))
      by (intros j; rewrite Nat2Z.id; reflexivity).
    rewrite <- Hlen. exact (nth_seq_suffix 0 shares []). }
  clear Hgen. rewrite <- Hall at 1.
  rewrite (Split_Join_at_least fuel s s' secret modulus k n shares
             (shareNumbers_upto (Z.to_nat n))); try assumption.
  - rewrite Z.mod_small by exact Hs. reflexivity.
  - unfold shareNumbers_upto. rewrite length_map, length_seq. lia.
  - unfold shareNumbers_upto. intros i Hi. apply in_map_iff in Hi.
    destruct Hi as (j & <- & Hj). apply in_seq in Hj. lia.
  - apply NoDup_mod_small with (n := n); [exact Hn | | ].
    + unfold shareNumbers_upto. intros i Hi. apply in_map_iff in Hi.
      destruct Hi as (j & <- & Hj). apply in_seq in Hj. lia.
    + apply NoDup_map_of_nat, seq_NoDup.
Qed.

(** X11.  What [TestSplitting] checks, for every window: with a prime
    modulus, a secret in [0, modulus), [n <= modulus] shares from a
    successful [Split], [n] an [int], and the share numbers [0 .. n-1], every
    window [shares[i:k+i]] with [0 <= i <= n - k], joined with
    [shareNumbers[i:k+i]], returns the secret with a nil error. *)
Theorem Split_Join_windows (fuel : nat) (s s' : St) (secret modulus k n : Z)
  (shares : list Z) (i : nat) :
  Z.prime modulus ->
  0 <= secret < modulus ->
  n <= modulus ->
  n <= GoInt.max_int ->
  Split next fuel s secret modulus k n = Some (s', Returns (shares, None)) ->
  Z.of_nat i <= n - k ->
  Join (slice shares i (Z.to_nat k + i))
    (slice (shareNumbers_upto (Z.to_nat n)) i (Z.to_nat k + i)) modulus
  = Returns (Some secret, None).
Proof.
  intros Hp Hs Hn Hmax Hsplit Hi.
  pose proof (Split_success next _ _ _ _ _ _ _ _ Hsplit)
    as (Hkn & _ & _ & rs & _ & _ & Hshares).
  assert (Hlen : length shares = Z.to_nat n)
    by (rewrite Hshares, length_map, length_seq; reflexivity).
  unfold slice. replace (Z.to_nat k + i - i)%nat with (Z.to_nat k) by lia.
  rewrite (slice_nth 0 shares) by lia.
  rewrite (slice_nth 0 (shareNumbers_upto (Z.to_nat n)))
    by (unfold shareNumbers_upto; rewrite length_map, length_seq; lia).
  assert (Hnums : map (fun j => nth j (shareNumbers_upto (Z.to_nat n)) 0)
                    (seq i (Z.to_nat k))
                  = map Z.of_nat (seq i (Z.to_nat k))).
  { apply map_ext_in. intros j Hj. apply in_seq in Hj.
    unfold shareNumbers_upto.
    rewrite nth_indep with (d' := Z.of_nat 0) by (rewrite length_map, length_seq; lia).
    rewrite map_nth, seq_nth by lia. reflexivity. }
  rewrite Hnums.
  assert (Hsh : map (fun j => nth j shares 0) (seq i (Z.to_nat k))
                = map (fun j => nth (Z.to_nat j) shares 0)
                    (map Z.of_nat (seq i (Z.to_nat k)))).
  { rewrite map_map. apply map_ext. intros j. rewrite Nat2Z.id. reflexivity. }
  rewrite Hsh.
  rewrite (Split_Join_at_least fuel s s' secret modulus k n shares); try assumption.
  - rewrite Z.mod_small by exact Hs. reflexivity.
  - rewrite length_map, length_seq. lia.
  - intros j Hj. apply in_map_iff in Hj. destruct Hj as (j' & <- & Hj').
    apply in_seq in Hj'. lia.
  - apply NoDup_mod_small with (n := n); [exact Hn | | ].
    + intros j Hj. apply in_map_iff in Hj. destruct Hj as (j' & <- & Hj').
      apply in_seq in Hj'. lia.
    + apply NoDup_map_of_nat, seq_NoDup.
Qed.

(** X6.  Threshold one needs no prime: when [Split] with [k = 1] has
    succeeded, whatever the modulus, joining any single share with its
    number returns the secret reduced modulo the modulus. *)
Theorem Split_Join_threshold_one (fuel : nat) (s s' : St) (secret modulus n i : Z)
  (shares : list Z) :
  Split next fuel s secret modulus 1 n = Some (s', Returns (shares, None)) ->
  0 <= i < n ->
  Join [nth (Z.to_nat i) shares 0] [i] modulus
  = Returns (Some (secret mod Z.abs modulus), None).
Proof.
  intros Hsplit Hi.
  pose proof (Split_success next _ _ _ _ _ _ _ _ Hsplit)
    as (_ & _ & Hm & rs & Hrs & _ & Hshares).
  destruct rs as [ | r rs]; [ | cbn in Hrs; lia].
  rewrite Join_value.
  2: exact Hm.
  2: reflexivity.
  2: { repeat constructor. lia. }
  unfold points. cbn [map combine lagrange_sum app].
  change (lagrange_term modulus 0 (point i) []) with 1.
  rewrite Z.mul_1_l, Z.add_0_r.
  rewrite Hshares, nth_map_seq by lia.
  cbn [map]. change (Z.to_nat 1) with 1%nat.
  rewrite Split_sum_one, Z.mod_mod by lia. reflexivity.
Qed.

End MoreShares.

Lemma Split_Join_at_least_k_witness :
  Join (map (fun i => nth (Z.to_nat i) [1; 0; 0; 1; 3] 0) [4; 0; 2; 1]) [4; 0; 2; 1] 7
  = Returns (Some 3, None).
Proof.
  apply (proj1 (Split_Join_at_least_k buffer_next 1 [xc8; x03; x07] [x07] 3 7 3 5
                  [1; 0; 0; 1; 3] [4; 0; 2; 1]
                  prime_7 ltac:(lia) ltac:(lia)
                  ltac:(unfold GoInt.max_int; lia) eq_refl)).
  - cbn. lia.
  - cbn [In]. intros i Hi. lia.
  - repeat constructor; cbn [In]; lia.
Defined.

Lemma Split_Join_windows_witness :
  Join (slice [1; 0; 0; 1; 3] 2 (Z.to_nat 3 + 2))
    (slice (shareNumbers_upto (Z.to_nat 5)) 2 (Z.to_nat 3 + 2)) 7
  = Returns (Some 3, None).
Proof.
  apply (Split_Join_windows buffer_next 1 [xc8; x03; x07] [x07] 3 7 3 5).
  - exact prime_7.
  - lia.
  - lia.
  - unfold GoInt.max_int. lia.
  - reflexivity.
  - lia.
Defined.

Lemma Split_Join_threshold_one_witness :
  Join [nth (Z.to_nat 2) [3; 3; 3] 0] [2] 6 = Returns (Some ((-3) mod Z.abs 6), None).
Proof.
  apply (Split_Join_threshold_one buffer_next 0 [] [] (-3) 6 3 2).
  - reflexivity.
  - lia.
Defined.

(* ================================================================== *)
(** * randomNumber: what the mask is good for *)

Lemma byte_and_below (b : byte) (r : Z) :
  1 <= r <= 8 ->
  Z.of_N (Byte.to_N (byte_and b (Z.to_N (Z.shiftl 1 r - 1)))) < 2 ^ r.
Proof.
  intros Hr.
  assert (Hcases : r = 1 \/ r = 2 \/ r = 3 \/ r = 4 \/ r = 5 \/ r = 6 \/ r = 7 \/ r = 8)
    by lia.
  destruct Hcases as [-> | [-> | [-> | [-> | [-> | [-> | [-> | ->]]]]]]];
    destruct b; vm_compute; reflexivity.
Qed.

Lemma SetBytes_from_below (buf : list byte) :
  forall acc,
    0 <= acc ->
    fold_left (fun acc b => acc * 256 + Z.of_N (Byte.to_N b)) buf acc
    < (acc + 1) * 256 ^ Z.of_nat (length buf).
Proof.
  induction buf as [ | b buf IH]; intros acc Hacc; cbn [fold_left length].
  - cbn. lia.
  - pose proof (Byte.to_N_bounded b) as Hb.
    assert (Hb' : 0 <= Z.of_N (Byte.to_N b) <= 255) by lia.
    specialize (IH (acc * 256 + Z.of_N (Byte.to_N b)) ltac:(lia)).
    rewrite Nat2Z.inj_succ, Z.pow_succ_r by lia.
    assert (0 < 256 ^ Z.of_nat (length buf)) by (apply Z.pow_pos_nonneg; lia).
    nia.
Qed.

Section Mask.

Context {St : Type} (next : St -> St * (io_error + byte)).

Lemma ReadFull_from_length :
  forall (n : nat) (s : St) (got : list byte) s' buf,
    ReadFull_from St next n s got = (s', inr buf) ->
    length buf = (n + length got)%nat.
Proof.
  induction n as [ | n IH]; intros s got s' buf H; cbn [ReadFull_from] in H.
  - injection H as _ <-. rewrite length_rev. reflexivity.
  - destruct (next s) as [s1 [e | b]]; [discriminate | ].
    apply IH in H. cbn [length] in H. lia.
Qed.

Lemma randomNumber_loop_below (max : Z) (k : nat) (r B : Z) :
  1 <= r <= 8 ->
  r + 8 * (Z.of_nat k - 1) = B ->
  forall (fuel : nat) (s : St) (n0 : Z) s' n e,
    0 <= n0 < 2 ^ B ->
    randomNumber_loop next fuel s max k r n0 = Some (s', Returns (n, e)) ->
    0 <= n < 2 ^ B.
Proof.
  intros Hr HB. induction fuel as [ | fuel IH]; intros s n0 s' n e Hn0 H;
    cbn [randomNumber_loop] in H.
  - discriminate.
  - destruct (ReadFull next s k) as [s1 [e1 | buf]] eqn:Hread.
    + injection H as _ <- _. exact Hn0.
    + destruct buf as [ | b0 rest]; [discriminate | ].
      assert (Hcand : 0 <= Big.SetBytes (byte_and b0 (Z.to_N (Z.shiftl 1 r - 1)) :: rest)
                      < 2 ^ B).
      { split; [apply BigFacts.SetBytes_nonneg | ].
        apply ReadFull_from_length in Hread. cbn [length] in Hread.
        unfold Big.SetBytes. cbn [fold_left].
        pose proof (byte_and_below b0 r Hr) as Hb0.
        pose proof (SetBytes_from_below rest
                      (0 * 256 + Z.of_N (Byte.to_N
                         (byte_and b0 (Z.to_N (Z.shiftl 1 r - 1)))))
                      ltac:(lia)) as Hfold.
        eapply Z.lt_le_trans; [exact Hfold | ].
        replace B with (r + 8 * Z.of_nat (length rest)) by lia.
        rewrite Z.pow_add_r, Z.pow_mul_r by lia.
        change (2 ^ 8) with 256.
        assert (0 < 256 ^ Z.of_nat (length rest)) by (apply Z.pow_pos_nonneg; lia).
        nia. }
      destruct (Big.Cmp _ max <? 0).
      * injection H as _ <- _. exact Hcand.
      * eapply IH; [exact Hcand | exact H].
Qed.

(** X12.  The mask keeps every candidate below [2 ^ BitLen max]: whatever
    [randomNumber] returns, with or without an error, is a value in
    [0, 2 ^ BitLen max), and so below [2 * max] for [max >= 1]; no more than
    half of the candidates can be rejected. *)
Theorem randomNumber_below_power (fuel : nat) (s s' : St) (max n : Z)
  (e : option error) :
  randomNumber next fuel s max = Some (s', Returns (n, e)) ->
  0 <= n < 2 ^ Big.BitLen max
  /\ (1 <= max -> n < 2 * max).
Proof.
  intros H.
  assert (HB : 0 <= Big.BitLen max).
  { unfold Big.BitLen. destruct (max =? 0); [lia | ].
    pose proof (Z.log2_nonneg (Z.abs max)). lia. }
  assert (Hn : 0 <= n < 2 ^ Big.BitLen max).
  { unfold randomNumber in H.
    destruct (Z.eq_dec (Big.BitLen max) 0) as [E0 | N0].
    - rewrite E0 in H. destruct fuel; cbn in H; discriminate.
    - pose proof (Z.div_mod (Big.BitLen max) 8 ltac:(lia)) as Hdm.
      pose proof (Z.mod_pos_bound (Big.BitLen max) 8 ltac:(lia)) as Hmb.
      pose proof (Z.div_mod (Big.BitLen max + 7) 8 ltac:(lia)) as Hdm7.
      pose proof (Z.mod_pos_bound (Big.BitLen max + 7) 8 ltac:(lia)) as Hmb7.
      eapply (randomNumber_loop_below max _ _ (Big.BitLen max)); [ | | | exact H].
      + destruct (Z.eqb_spec (Big.BitLen max mod 8) 0); lia.
      + rewrite Z2Nat.id by lia.
        destruct (Z.eqb_spec (Big.BitLen max mod 8) 0); lia.
      + split; [lia | apply Z.pow_pos_nonneg; lia]. }
  split; [exact Hn | ].
  intros Hmax. eapply Z.lt_le_trans; [apply Hn | ].
  unfold Big.BitLen.
  assert ((max =? 0) = false) as -> by (apply Z.eqb_neq; lia).
  rewrite Z.abs_eq by lia.
  pose proof (Z.log2_nonneg max).
  rewrite Z.pow_add_r, Z.pow_1_r by lia.
  pose proof (Z.log2_spec max ltac:(lia)). lia.
Qed.

End Mask.

Lemma randomNumber_below_power_witness :
  randomNumber buffer_next 2 [xff] 5
  = Some ([], Returns (7, Some (ErrRandomSource EOF)))
  /\ 0 <= 7 < 2 ^ Big.BitLen 5
  /\ 7 < 2 * 5.
Proof.
  split; [reflexivity | ].
  destruct (randomNumber_below_power buffer_next 2 [xff] [] 5 7
              (Some (ErrRandomSource EOF)) eq_refl) as [H1 H2].
  split; [exact H1 | apply H2; lia].
Defined.

(* ================================================================== *)
(** * One share of two does not give the secret away *)

Lemma Split_sum_two (secret a1 bigI : Z) :
  Split_sum [secret; a1] 2 bigI = secret + bigI * a1.
Proof.
  unfold Split_sum. cbn [seq fold_left nth].
  rewrite !BigFacts.Exp_pow.
  change (Z.of_nat 0) with 0. change (Z.of_nat 1) with 1.
  rewrite Z.pow_0_r, Z.pow_1_r. ring.
Qed.

Section BelowThreshold.

Context {St : Type} (next : St -> St * (io_error + byte)).

(** X13.  The coefficient drawn for [k = 2] is never 0 modulo the modulus:
    with a prime modulus and a secret in [0, modulus), a single share of a
    successful [Split] with [k = 2], joined with its number, never gives the
    secret, unless its point [i + 1] is a multiple of the modulus. *)
Theorem Split_Join_one_of_two (fuel : nat) (s s' : St) (secret modulus n i : Z)
  (shares : list Z) :
  Z.prime modulus ->
  0 <= secret < modulus ->
  Split next fuel s secret modulus 2 n = Some (s', Returns (shares, None)) ->
  0 <= i < n ->
  i < GoInt.max_int ->
  (i + 1) mod modulus <> 0 ->
  Join [nth (Z.to_nat i) shares 0] [i] modulus <> Returns (Some secret, None).
Proof.
  intros Hp Hs Hsplit Hi Hmax Hpoint.
  pose proof (Z.prime_ge_2 modulus Hp) as Hp2.
  pose proof (Split_success next _ _ _ _ _ _ _ _ Hsplit)
    as (_ & _ & Hm & rs & Hrs & Hsam & Hshares).
  apply samples_range in Hsam.
  destruct rs as [ | r [ | r' rs]]; try (cbn in Hrs; lia).
  inversion Hsam as [ | ? ? Hr _]; subst.
  rewrite Join_value.
  2: exact Hm.
  2: reflexivity.
  2: { repeat constructor. lia. }
  unfold points. cbn [map combine lagrange_sum app].
  change (lagrange_term modulus 0 (point i) []) with 1.
  rewrite Z.mul_1_l, Z.add_0_r, nth_map_seq by lia.
  cbn [map]. change (Z.to_nat 2) with 2%nat.
  rewrite Split_sum_two, Z.mod_mod, Z.abs_eq by lia.
  replace (Z.of_nat (S (Z.to_nat i))) with (i + 1) by lia.
  intros H. injection H as H.
  assert (Hdiv : (modulus | (i + 1) * (r + 1))).
  { replace ((i + 1) * (r + 1)) with (secret + (i + 1) * (r + 1) - secret) by ring.
    apply mod_eq_divide; [lia | ].
    rewrite H. symmetry. apply Z.mod_small. exact Hs. }
  apply Z.divide_prime_mul in Hdiv; [ | exact Hp].
  destruct Hdiv as [Hd | Hd].
  - apply Hpoint. apply Z.mod_divide in Hd; [exact Hd | lia].
  - apply Z.divide_pos_le in Hd; lia.
Qed.

End BelowThreshold.

Lemma Split_Join_one_of_two_witness :
  Split buffer_next 1 [x02; x03] 3 7 2 3 = Some ([x03], Returns ([6; 2; 5], None))
  /\ Join [nth (Z.to_nat 1) [6; 2; 5] 0] [1] 7 <> Returns (Some 3, None).
Proof.
  split; [reflexivity | ].
  apply (Split_Join_one_of_two buffer_next 1 [x02; x03] [x03] 3 7 3 1).
  - exact prime_7.
  - lia.
  - reflexivity.
  - lia.
  - unfold GoInt.max_int. lia.
  - discriminate.
Defined.
